(** * exec2: a shallow embedding of plugins/inputs/exec2/exec.go

    The plugin runs a configured list of shell commands, sanitises their
    output, tags the parsed metrics with the port that generated each
    command, and rebuilds part of its command list from metrics written
    to it. *)

From Stdlib Require Import ZArith List Lia Strings.Byte Ascii String.
From Stdlib Require Import PrimFloat FloatOps SpecFloat DecimalString.
From Stdlib Require Import Permutation.
From Equations Require Import Equations.
From stdpp Require Import base decidable option list gmap strings.

Open Scope Z_scope.

(** ** The parts of Go's [bytes] package the plugin calls

    A [bytes.Buffer] holding unread bytes is the list of those bytes. Go's
    [int] lengths and indices are integers [Z], so that the comparisons of
    the source can be written as they are. *)

Module bytes.

#[global] Instance byte_eq_dec : EqDecision byte := Byte.byte_eq_dec.

Definition Len (buf : list byte) : Z := Z.of_nat (length buf).

(** [buf.Truncate(n)] keeps the first [n] unread bytes (Go panics
    unless [0 <= n <= Len]; every call of the plugin is in that range,
    see [IndexByte_range]). *)
Definition Truncate (buf : list byte) (n : Z) : list byte :=
  take (Z.to_nat n) buf.

Definition WriteString (buf : list byte) (s : list byte) : list byte :=
  buf ++ s.

(** [buf.Write(p)] appends [p]. *)
Definition Write (buf : list byte) (p : list byte) : list byte :=
  buf ++ p.

(** The slice expression [p[:n]]. *)
Definition slice_to (p : list byte) (n : Z) : list byte :=
  take (Z.to_nat n) p.

(** [bytes.IndexByte(b, c)]: the index of the first [c] in [b], or [-1]. *)
Fixpoint IndexByte (b : list byte) (c : byte) : Z :=
  match b with
  | [] => -1
  | x :: b' =>
      if decide (x = c) then 0
      else let i := IndexByte b' c in if i <? 0 then -1 else i + 1
  end.

(** [b.ReadBytes(delim)]: reads up to and including the first [delim];
    the result is the bytes read, whether the read met the end of the
    buffer before a delimiter (the error [io.EOF]), and the bytes left
    unread. *)
Fixpoint ReadBytes (b : list byte) (delim : byte)
  : list byte * bool * list byte :=
  match b with
  | [] => ([], true, [])
  | x :: b' =>
      if decide (x = delim) then ([x], false, b')
      else let '(line, eof, rest) := ReadBytes b' delim in
           (x :: line, eof, rest)
  end.

End bytes.

(** ** The parts of Go's [strings] package the plugin calls, for the
    one-byte separators it passes ([" "] and [","]) *)

Module gostrings.

(** The text before and after the first [sep], if there is one. *)
Fixpoint Cut (s : string) (sep : ascii) : option (string * string) :=
  match s with
  | EmptyString => None
  | String c s' =>
      if decide (c = sep) then Some (EmptyString, s')
      else match Cut s' sep with
           | Some (before, after) => Some (String c before, after)
           | None => None
           end
  end.

(** The loop of [genSplit]: at most [n] cuts, the rest unsplit. *)
Fixpoint genSplit (n : nat) (s : string) (sep : ascii) : list string :=
  match n with
  | O => [s]
  | S n' =>
      match Cut s sep with
      | None => [s]
      | Some (before, after) => before :: genSplit n' after sep
      end
  end.

(** [strings.SplitN(s, sep, n)]: nothing for [n = 0], every piece for
    [n < 0], otherwise at most [n] pieces, the last one unsplit. *)
Definition SplitN (s : string) (sep : ascii) (n : Z) : list string :=
  if n =? 0 then []
  else if n <? 0 then genSplit (String.length s) s sep
  else genSplit (Z.to_nat (n - 1)) s sep.

Definition Split (s : string) (sep : ascii) : list string :=
  SplitN s sep (-1).

(** [strings.Join(elems, sep)]. *)
Fixpoint Join (elems : list string) (sep : string) : string :=
  match elems with
  | [] => EmptyString
  | [x] => x
  | x :: rest => x +:+ sep +:+ Join rest sep
  end.

End gostrings.

(** ** Output sanitizer *)

Definition MaxStderrBytes : Z := 512.

Definition newline : byte := Byte.x0a.
Definition carriage_return : byte := Byte.x0d.

(** The three bytes of the marker ["..."]. *)
Definition marker : list byte := [Byte.x2e; Byte.x2e; Byte.x2e].

Definition truncate (buf : list byte) : list byte :=
  let didTruncate := false in
  let '(buf, didTruncate) :=
    if MaxStderrBytes <? bytes.Len buf
    then (bytes.Truncate buf MaxStderrBytes, true)
    else (buf, didTruncate) in
  let i := bytes.IndexByte buf newline in
  let '(buf, didTruncate) :=
    if 0 <? i
    then
      let didTruncate :=
        if i <? bytes.Len buf - 1 then true else didTruncate in
      (bytes.Truncate buf i, didTruncate)
    else (buf, didTruncate) in
  if didTruncate then bytes.WriteString buf marker else buf.

(** A value together with the equation that names it, so that the
    recursion below can see what a read returned. *)
Definition inspect {A : Type} (x : A) : {y : A | x = y} := exist _ x eq_refl.

(** The [for] loop of [removeCarriageReturns]: one iteration reads up to
    the next carriage return, copies what it read without the delimiter,
    and stops on a nil read or on [io.EOF]. An iteration that goes on has
    consumed at least the delimiter, which is what the recursion rests
    on. *)
Equations? removeCarriageReturns_loop (b buf : list byte) : list byte
  by wf (length b) lt :=
  removeCarriageReturns_loop b buf
    with inspect (bytes.ReadBytes b carriage_return) := {
    | exist _ ([], _, _) _ => buf;
    | exist _ (byt, true, _) _ =>
        bytes.Write buf (bytes.slice_to byt (bytes.Len byt));
    | exist _ (byt, false, b') _ =>
        removeCarriageReturns_loop b'
          (bytes.Write buf (bytes.slice_to byt (bytes.Len byt - 1))) }.
Proof.
  clear removeCarriageReturns_loop buf. subst byt.
  revert e. generalize (b1 :: l0). clear b1 l0. revert b'.
  induction b as [|x b IH]; intros rest line e; simpl in e.
  - discriminate.
  - destruct (decide (x = carriage_return)).
    + inversion e; subst. simpl. lia.
    + destruct (bytes.ReadBytes b carriage_return) as [[line' eof] rest'].
      inversion e; subst. specialize (IH _ _ eq_refl). simpl. lia.
Qed.

(** ** Errors, metrics and the calls the plugin makes on its collaborators *)

(** Go [error] values: those of the libraries and collaborators, known
    only by their message, and the two the plugin builds with
    [fmt.Errorf]. *)
#[warnings="-register-all"]
Inductive error : Type :=
| ExternalError (msg : string)
    (* an error of a library, the runner or the parser *)
| UnableToParse (cause : option error)
    (* "exec2: unable to parse command, %s" *)
| CommandFailed (runErr : error) (command : string) (errbuf : list byte).
    (* "exec2: %s for command '%s': %s" *)

(** The dynamic types a field value of a metric can have. *)
Inductive FieldValue : Type :=
| Float64 (v : float)
| Int64 (v : Z)
| Uint64 (v : Z)
| StringValue (v : string)
| BoolValue (v : bool).

Record Field : Type := mkField { Key : string; Value : FieldValue }.

(** Modelled from the spec: [telegraf.Metric], whose implementation
    (package [metric]) is not among the sources. The spec gives a metric
    as a record of fields and tags; a tag is attached under its name, so
    the tags are a map from names to values. *)
Record Metric : Type := mkMetric {
  Name : string;
  Tags : gmap string string;
  Fields : list Field
}.

(** Modelled from the spec: [Metric.AddTag], tag addition. *)
Definition AddTag (key value : string) (m : Metric) : Metric :=
  {| Name := Name m; Tags := <[key := value]> (Tags m); Fields := Fields m |}.

(** Modelled from the spec: [Metric.FieldList], the fields in
    enumeration order. *)
Definition FieldList (m : Metric) : list Field := Fields m.

(** A call received by the accumulator [acc] ([AddError], [AddMetric])
    or by the plugin's logger ([e.Log.Errorf]). The state of the two
    collaborators is the list of the calls they received, oldest
    first. *)
Inductive Call : Type :=
| AddError (err : error)
| AddMetric (m : Metric)
| LogErrorf (err : error).

Abbreviation Accumulator := (list Call).

(** The [Runner] interface. A duration is a number of nanoseconds. *)
Record Runner : Type := mkRunner {
  Run : string -> Z -> list byte * list byte * option error
}.

(** The [parsers.Parser] interface, with the one fact the plugin asks of
    the parser's dynamic type: whether it is a [*nagios.NagiosParser]. *)
Record Parser : Type := mkParser {
  Parse : list byte -> list Metric * option error;
  isNagiosParser : bool
}.

(** What the plugin reaches outside itself: the platform, the file
    system, child processes, and the library functions it calls.
    - [GOOS] is [runtime.GOOS];
    - [Glob pattern] is [filepath.Glob(pattern)];
    - [Sprintf format a] is [fmt.Sprintf(format, a)] for a string [a];
    - [FormatFloat v] is [strconv.FormatFloat(v, 'f', -1, 64)];
    - [shellquote_Split] is [shellquote.Split];
    - [RunTimeout split_cmd timeout] runs [exec.Command(split_cmd[0],
      split_cmd[1:]...)] under [internal.RunTimeout] and gives what the
      process wrote to its standard output and standard error, and the
      error of the run;
    - [TryAddState] is [nagios.TryAddState]. *)
Class GoEnv : Type := mkGoEnv {
  GOOS : string;
  Glob : string -> list string * option error;
  Sprintf : string -> string -> string;
  FormatFloat : float -> string;
  shellquote_Split : string -> list string * option error;
  RunTimeout : list string -> Z -> list byte * list byte * option error;
  TryAddState : option error -> list Metric -> list Metric * option error
}.

(** The plugin's state. The lock [mutext] has no field: every method is
    one step of the model, so a method that takes the lock sees and
    leaves a whole state. [parser] is the parser the host installed with
    [SetParser] before the first cycle. The diagnostic prints of [Write]
    to the standard output are not part of the state. *)
Record Exec2 : Type := mkExec2 {
  Commands : list string;
  Command : string;
  Pattern : string;
  Ports : string;
  cmds : gmap string string;
  addedPattern : bool;
  ExCommands : list string;
  ex_cmds : gmap string string;
  Timeout : Z;
  parser : Parser;
  runner : Runner
}.

Definition second : Z := 1000000000.

(** The bytes of a string literal, to write buffers down. *)
Definition bytes_of (s : string) : list byte := list_byte_of_string s.

(** ** The plugin *)

Section Plugin.
Context `{env : GoEnv}.

(** [removeCarriageReturns] removes all carriage returns from the input
    if the OS is Windows. *)
Definition removeCarriageReturns (b : list byte) : list byte :=
  if decide (GOOS = "windows") then removeCarriageReturns_loop b [] else b.

(** [CommandRunner.Run]. *)
Definition CommandRunner_Run (command : string) (timeout : Z)
  : list byte * list byte * option error :=
  let '(split_cmd, err) := shellquote_Split command in
  if bool_decide (err <> None) || (Z.of_nat (length split_cmd) =? 0)
  then ([], [], Some (UnableToParse err))
  else
    let '(out, stderr, runErr) := RunTimeout split_cmd timeout in
    let out := removeCarriageReturns out in
    let stderr :=
      if 0 <? bytes.Len stderr
      then truncate (removeCarriageReturns stderr)
      else stderr in
    (out, stderr, runErr).

Definition CommandRunner : Runner := {| Run := CommandRunner_Run |}.

Definition SetParser (e : Exec2) (p : Parser) : Exec2 :=
  {| Commands := Commands e; Command := Command e; Pattern := Pattern e;
     Ports := Ports e; cmds := cmds e; addedPattern := addedPattern e;
     ExCommands := ExCommands e; ex_cmds := ex_cmds e; Timeout := Timeout e;
     parser := p; runner := runner e |}.

(** [addExMetric], under the read lock. *)
Definition addExMetric (e : Exec2) (command : string) (metric : Metric)
  : Metric :=
  match ex_cmds e !! command with
  | Some port => AddTag "port" port metric
  | None => metric
  end.

(** [addMetric]: the metric is a pointer in the source, so the tags
    added on the way are those of the metric handed to [acc]. *)
Definition addMetric (e : Exec2) (command : string) (metric : Metric)
  (acc : Accumulator) : Accumulator :=
  let metric :=
    match cmds e !! command with
    | Some port => AddTag "port" port metric
    | None => metric
    end in
  let metric := addExMetric e command metric in
  acc ++ [AddMetric metric].

(** [ProcessCommand], the body of one goroutine. *)
Definition ProcessCommand (e : Exec2) (command : string) (acc : Accumulator)
  : Accumulator :=
  let isNagios := isNagiosParser (parser e) in
  let '(out, errbuf, runErr) := Run (runner e) command (Timeout e) in
  match negb isNagios, runErr with
  | true, Some runErr' =>
      acc ++ [AddError (CommandFailed runErr' command errbuf)]
  | _, _ =>
      let '(metrics, err) := Parse (parser e) out in
      match err with
      | Some err => acc ++ [AddError err]
      | None =>
          let '(metrics, acc) :=
            if isNagios
            then
              let '(metrics, err) := TryAddState runErr metrics in
              (metrics,
               match err with
               | Some err => acc ++ [LogErrorf err]
               | None => acc
               end)
            else (metrics, acc) in
          fold_left (fun acc m => addMetric e command m acc) metrics acc
      end
  end.

(** The goroutines of one cycle run concurrently; each makes its calls
    on [acc] in its own order. A schedule names, step by step, the
    goroutine that makes its next call (a step naming a goroutine that
    has none left, or no goroutine, is skipped); [wg.Wait] lets every
    goroutine finish, so what the schedule has left is made after it. *)
Fixpoint interleave {A : Type} (sched : list nat) (work : list (list A))
  : list A :=
  match sched with
  | [] => concat work
  | k :: sched' =>
      match work !! k with
      | Some (x :: rest) => x :: interleave sched' (<[k := rest]> work)
      | _ => interleave sched' work
      end
  end.

(** The inner loop over the matches of one pattern. *)
Definition appendMatches (cmdAndArgs matches commands : list string)
  : list string :=
  fold_left
    (fun commands match_ =>
       if Z.of_nat (length cmdAndArgs) =? 1
       then commands ++ [match_]
       else commands ++
              [gostrings.Join [match_; nth 1 cmdAndArgs EmptyString] " "])
    matches commands.

(** The token of a pattern that is glob-expanded: [cmdAndArgs[0]], the
    text before the first space. *)
Definition firstToken (pattern : string) : string :=
  nth 0 (gostrings.SplitN pattern " " 2) EmptyString.

(** One iteration of the loop that [Gather] runs over [e.Commands] and
    [readExCommandsLock] over [e.ExCommands] (the source has the same
    loop twice). *)
Definition resolvePattern (st : list string * Accumulator) (pattern : string)
  : list string * Accumulator :=
  let '(commands, acc) := st in
  let cmdAndArgs := gostrings.SplitN pattern " " 2 in
  if Z.of_nat (length cmdAndArgs) =? 0 then (commands, acc)
  else
    let '(matches, err) := Glob (nth 0 cmdAndArgs EmptyString) in
    match err with
    | Some err => (commands, acc ++ [AddError err])
    | None =>
        if Z.of_nat (length matches) =? 0
        then (commands ++ [pattern], acc)
        else (appendMatches cmdAndArgs matches commands, acc)
    end.

(** The loop itself: the resolved commands of a list of patterns, from
    an empty slice, and the accumulator after the glob errors. *)
Definition resolveCommands (patterns : list string) (acc : Accumulator)
  : list string * Accumulator :=
  fold_left resolvePattern patterns ([], acc).

(** [readExCommandsLock], under the read lock. *)
Definition readExCommandsLock (e : Exec2) (acc : Accumulator)
  : list string * Accumulator :=
  resolveCommands (ExCommands e) acc.

(** [Gather], under the schedule [sched] of its goroutines. The result
    is the plugin's state, the accumulator, and the error returned. *)
Definition Gather (sched : list nat) (e : Exec2) (acc : Accumulator)
  : Exec2 * Accumulator * option error :=
  let e :=
    if decide (Command e <> "")
    then {| Commands := Commands e ++ [Command e]; Command := "";
            Pattern := Pattern e; Ports := Ports e; cmds := cmds e;
            addedPattern := addedPattern e; ExCommands := ExCommands e;
            ex_cmds := ex_cmds e; Timeout := Timeout e; parser := parser e;
            runner := runner e |}
    else e in
  let '(commands, acc) := resolveCommands (Commands e) acc in
  let '(exCommands, acc) := readExCommandsLock e acc in
  let work :=
    map (fun command => ProcessCommand e command [])
        (commands ++ exCommands) in
  (e, acc ++ interleave sched work, None).

(** [addPatternCommands]. *)
Definition addPatternCommands (e : Exec2) : Exec2 :=
  if bool_decide (Pattern e <> "") && bool_decide (Ports e <> "")
     && negb (addedPattern e)
  then
    let ports := gostrings.Split (Ports e) "," in
    let '(cmds', commands, added) :=
      fold_left
        (fun '(cmds', commands, added) port =>
           let cmd := Sprintf (Pattern e) port in
           (<[cmd := port]> cmds', commands ++ [cmd], true))
        ports (∅, [], addedPattern e) in
    {| Commands := Commands e ++ commands; Command := Command e;
       Pattern := Pattern e; Ports := Ports e; cmds := cmds';
       addedPattern := added; ExCommands := ExCommands e;
       ex_cmds := ex_cmds e; Timeout := Timeout e; parser := parser e;
       runner := runner e |}
  else e.

(** The ports [Write] extracts: the float64 field values of the batch,
    formatted, in metric and then field order. *)
Definition extractPorts (metrics : list Metric) : list string :=
  fold_left
    (fun exPorts m =>
       fold_left
         (fun exPorts f =>
            match Value f with
            | Float64 value => exPorts ++ [FormatFloat value]
            | _ => exPorts
            end)
         (FieldList m) exPorts)
    metrics [].

(** [Write]: the state after the call and the error returned. *)
Definition Write (e : Exec2) (metrics : list Metric) : Exec2 * option error :=
  let exPorts := extractPorts metrics in
  if bool_decide (Pattern e <> "") && (0 <? Z.of_nat (length exPorts))
  then
    let ExCommands0 : list string := [] in
    let '(ex_cmds', commands) :=
      fold_left
        (fun '(ex_cmds', commands) port =>
           let cmd := Sprintf (Pattern e) port in
           (<[cmd := port]> ex_cmds', commands ++ [cmd]))
        exPorts (∅, []) in
    ({| Commands := Commands e; Command := Command e; Pattern := Pattern e;
        Ports := Ports e; cmds := cmds e; addedPattern := addedPattern e;
        ExCommands := ExCommands0 ++ commands; ex_cmds := ex_cmds';
        Timeout := Timeout e; parser := parser e; runner := runner e |},
     None)
  else (e, None).

(** [Init]. *)
Definition Init (e : Exec2) : Exec2 * option error :=
  (addPatternCommands e, None).

End Plugin.

(** ** Stand-ins for the environment, to run the model on examples *)

(** A stand-in for [fmt.Sprintf] on one string operand: the operand
    replaces the first [%s]. It is what Go prints for a format with one
    [%s] and no other percent sign. *)
Fixpoint Sprintf_verb_s (format a : string) : string :=
  match format with
  | EmptyString => EmptyString
  | String c rest =>
      match rest with
      | String c' rest' =>
          if decide (c = "%"%char /\ c' = "s"%char) then a +:+ rest'
          else String c (Sprintf_verb_s rest a)
      | EmptyString => format
      end
  end.

(** The integer a float64 is, when it is one that float64 holds with
    every digit: not the negative zero, and below 2^53 in magnitude. *)
Definition integral (v : float) : option Z :=
  match Prim2SF v with
  | S754_zero false => Some 0
  | S754_finite s m e =>
      let z := if s then Z.neg m else Z.pos m in
      let n :=
        if 0 <=? e then Some (z * 2 ^ e)
        else if Z.pos m mod 2 ^ (- e) =? 0 then Some (z / 2 ^ (- e))
        else None in
      match n with
      | Some n => if Z.abs n <? 2 ^ 53 then Some n else None
      | None => None
      end
  | _ => None
  end.

(** A stand-in for [strconv.FormatFloat(v, 'f', -1, 64)] on those
    values, which Go prints as the decimal integer. The other values are
    left out of the stand-in: it gives the empty string for them. *)
Definition FormatFloat_integral (v : float) : string :=
  match integral v with
  | Some z => NilZero.string_of_int (Z.to_int z)
  | None => EmptyString
  end.

(** An environment from a platform name, a table for the file system and
    one for the child processes: the words of a command are its
    space-separated pieces, and [nagios.TryAddState] adds nothing. *)
Definition stand_in (goos : string)
  (glob : string -> list string * option error)
  (proc : list string -> list byte * list byte * option error) : GoEnv :=
  {| GOOS := goos;
     Glob := glob;
     Sprintf := Sprintf_verb_s;
     FormatFloat := FormatFloat_integral;
     shellquote_Split := fun s =>
       (filter (fun w => w <> EmptyString) (gostrings.Split s " "), None);
     RunTimeout := fun split_cmd _ => proc split_cmd;
     TryAddState := fun _ metrics => (metrics, None) |}.

(** A machine with no file matching any pattern, where every process
    prints a Windows-style line on each of its outputs and succeeds. *)
Definition crlf_output : list byte :=
  bytes_of "ok" ++ [carriage_return; newline].
Definition crlf_errors : list byte :=
  bytes_of "warn" ++ [carriage_return; newline] ++ bytes_of "more".
Definition no_files (pattern : string) : list string * option error :=
  ([], None).
Definition crlf_process (split_cmd : list string)
  : list byte * list byte * option error :=
  (crlf_output, crlf_errors, None).
Definition windows_env : GoEnv := stand_in "windows" no_files crlf_process.
Definition linux_env : GoEnv := stand_in "linux" no_files crlf_process.

(** The bytes [removeCarriageReturns] keeps on Windows. *)
Definition not_cr (x : byte) : Prop := x <> carriage_return.

#[local] Instance not_cr_dec (x : byte) : Decision (not_cr x).
Proof. unfold not_cr. apply _. Defined.

(** The float64 field values of a batch, in metric and then field
    enumeration order: the parameters [Write] extracts, before
    formatting. *)
Definition float64_of (f : Field) : option float :=
  match Value f with
  | Float64 v => Some v
  | _ => None
  end.

Definition float64_values (metrics : list Metric) : list float :=
  concat (map (fun m => omap float64_of (FieldList m)) metrics).

(** A parser that makes one metric of the whole output, and a plugin
    configured with the pattern "probe %s" that holds a dynamic set from
    an earlier update. *)
Definition whole_output_parser : Parser :=
  {| Parse := fun out =>
       ([mkMetric "exec" ∅
           [mkField "output" (StringValue (string_of_list_byte out))]],
        None);
     isNagiosParser := false |}.

Definition probe_plugin : Exec2 :=
  {| Commands := []; Command := ""; Pattern := "probe %s"; Ports := "";
     cmds := ∅; addedPattern := false;
     ExCommands := ["probe 1"%string];
     ex_cmds := {[ "probe 1"%string := "1"%string ]};
     Timeout := second * 5;
     parser := whole_output_parser;
     runner := @CommandRunner linux_env |}.

(** The same plugin with no pattern configured. *)
Definition patternless_plugin : Exec2 :=
  {| Commands := []; Command := ""; Pattern := ""; Ports := "";
     cmds := ∅; addedPattern := false;
     ExCommands := ["probe 1"%string];
     ex_cmds := {[ "probe 1"%string := "1"%string ]};
     Timeout := second * 5;
     parser := whole_output_parser;
     runner := @CommandRunner linux_env |}.

(** A batch of one metric with the float64 fields 9090.0 and 9091.0, and
    a batch with no float64 field. *)
Definition ports_batch : list Metric :=
  [mkMetric "listener" ∅
     [mkField "first" (Float64 9090%float);
      mkField "second" (Float64 9091%float)]].

Definition no_float_batch : list Metric :=
  [mkMetric "listener" ∅
     [mkField "count" (Int64 9090); mkField "host" (StringValue "a")]].

(** The characters of a string, to say that a token holds no space. *)
Definition chars (s : string) : list ascii := list_ascii_of_string s.

Definition space : ascii := " "%char.

(** A file system with two collector scripts, where "[" is a malformed
    pattern. *)
Definition bad_pattern : error := ExternalError "syntax error in pattern".

Definition collectors (pattern : string) : list string * option error :=
  if decide (pattern = "/tmp/collect_*.sh")
  then (["/tmp/collect_a.sh"; "/tmp/collect_b.sh"]%string, None)
  else if decide (pattern = "[") then ([], Some bad_pattern)
  else ([], None).

Definition collectors_env : GoEnv := stand_in "linux" collectors crlf_process.

(** A plugin configured with the pattern "check_port %s" and the static
    ports "80,443", before [Init]; a state in which one command is bound
    by both bindings; and a metric. *)
Definition check_port_plugin : Exec2 :=
  {| Commands := []; Command := ""; Pattern := "check_port %s";
     Ports := "80,443"; cmds := ∅; addedPattern := false;
     ExCommands := []; ex_cmds := ∅;
     Timeout := second * 5;
     parser := whole_output_parser;
     runner := @CommandRunner linux_env |}.

Definition twice_bound_plugin : Exec2 :=
  {| Commands := ["check"%string]; Command := ""; Pattern := "";
     Ports := ""; cmds := {[ "check"%string := "80"%string ]};
     addedPattern := true;
     ExCommands := ["check"%string];
     ex_cmds := {[ "check"%string := "81"%string ]};
     Timeout := second * 5;
     parser := whole_output_parser;
     runner := @CommandRunner linux_env |}.

Definition sample_metric : Metric :=
  mkMetric "exec" {[ "host"%string := "a"%string ]}
    [mkField "value" (Int64 1)].

(** The parameter bound to a command, the dynamic binding's when it has
    the command as a key and the static binding's otherwise, and a metric
    with that parameter as its "port" tag. *)
Definition boundPort (e : Exec2) (command : string) : option string :=
  match ex_cmds e !! command with
  | Some port => Some port
  | None => cmds e !! command
  end.

Definition withPortTag (e : Exec2) (command : string) (metric : Metric)
  : Metric :=
  match boundPort e command with
  | Some port => AddTag "port" port metric
  | None => metric
  end.

(** The plugin after the legacy single command is folded into its
    command list, and what one cycle works on: the commands the two lists
    resolve to and the calls their glob errors make. *)
Definition legacyFolded (e : Exec2) : Exec2 :=
  {| Commands :=
       Commands e ++
       (if decide (Command e <> "") then [Command e] else []);
     Command := ""; Pattern := Pattern e; Ports := Ports e; cmds := cmds e;
     addedPattern := addedPattern e; ExCommands := ExCommands e;
     ex_cmds := ex_cmds e; Timeout := Timeout e; parser := parser e;
     runner := runner e |}.

Section Cycle.
Context `{env : GoEnv}.

Definition resolvedCommands (patterns : list string) : list string :=
  (resolveCommands patterns []).1.

Definition globCalls (patterns : list string) : list Call :=
  (resolveCommands patterns []).2.

Definition cycleCommands (e : Exec2) : list string :=
  resolvedCommands (Commands (legacyFolded e)) ++
  resolvedCommands (ExCommands (legacyFolded e)).

End Cycle.

(** A machine where every process fails after a line on its standard
    error, and a plugin that runs a malformed pattern, the legacy
    command and a dynamic command there. *)
Definition exit_status_1 : error := ExternalError "exit status 1".

Definition failing_process (split_cmd : list string)
  : list byte * list byte * option error :=
  ([], bytes_of "denied", Some exit_status_1).



(** A plugin whose parser is the Nagios one, on a machine where every
    process fails and the exit code of a failed run cannot be read:
    [nagios.TryAddState] gives the metrics back with an error. *)
Definition exit_code_unknown : error := ExternalError "get exit code".

Definition nagios_env : GoEnv :=
  {| GOOS := "linux";
     Glob := no_files;
     Sprintf := Sprintf_verb_s;
     FormatFloat := FormatFloat_integral;
     shellquote_Split := fun s =>
       (filter (fun w => w <> EmptyString) (gostrings.Split s " "), None);
     RunTimeout := fun split_cmd _ => failing_process split_cmd;
     TryAddState := fun runErr metrics =>
       match runErr with
       | Some _ => (metrics, Some exit_code_unknown)
       | None => (metrics, None)
       end |}.

Definition nagios_parser : Parser :=
  {| Parse := Parse whole_output_parser; isNagiosParser := true |}.

Definition nagios_plugin : Exec2 :=
  {| Commands := ["check_load"%string]; Command := ""; Pattern := "";
     Ports := ""; cmds := ∅; addedPattern := false;
     ExCommands := []; ex_cmds := ∅;
     Timeout := second * 5;
     parser := nagios_parser;
     runner := @CommandRunner nagios_env |}.

(** A plugin with nothing configured to run. *)
Definition idle_plugin : Exec2 :=
  {| Commands := []; Command := ""; Pattern := "probe %s"; Ports := "";
     cmds := ∅; addedPattern := false; ExCommands := []; ex_cmds := ∅;
     Timeout := second * 5;
     parser := whole_output_parser;
     runner := @CommandRunner linux_env |}.

(** Following the claim's words: the first whitespace-delimited token
    of a spec, with whitespace as [strings.Fields] has it (space, tab,
    newline, vertical tab, form feed, carriage return), to compare with
    [firstToken], the token the code takes. *)
Definition tab : ascii := "009"%char.

Definition isSpace (c : ascii) : bool :=
  bool_decide
    (c ∈ [space; tab; "010"%char; "011"%char; "012"%char; "013"%char]).

Fixpoint dropSpaces (s : string) : string :=
  match s with
  | EmptyString => EmptyString
  | String c s' => if isSpace c then dropSpaces s' else s
  end.

Fixpoint takeToken (s : string) : string :=
  match s with
  | EmptyString => EmptyString
  | String c s' => if isSpace c then EmptyString else String c (takeToken s')
  end.

Definition firstWhitespaceToken (spec : string) : string :=
  takeToken (dropSpaces spec).

(** A machine with no file, where a pattern with an opening bracket and
    no closing one is malformed, and two specs whose arguments follow a
    tab. *)
Definition unclosed_class (pattern : string) : bool :=
  bool_decide ("["%char ∈ chars pattern) &&
  negb (bool_decide ("]"%char ∈ chars pattern)).

Definition no_files_strict (pattern : string) : list string * option error :=
  if unclosed_class pattern then ([], Some bad_pattern) else ([], None).

Definition strict_env : GoEnv := stand_in "linux" no_files_strict crlf_process.

Definition tab_bracket_spec : string := "x" +:+ String tab "[".

Definition tab_arguments_spec : string :=
  "/tmp/collect_*.sh" +:+ String tab "--fast".

(** The errors [filepath.Glob] returns for the tokens of a list of
    specs, in order. *)
Section GlobErrors.
Context `{env : GoEnv}.

Definition globErrors (patterns : list string) : list error :=
  omap (fun pattern => (Glob (firstToken pattern)).2) patterns.

End GlobErrors.

(** * Properties *)

(** ** [bytes.IndexByte] *)

Lemma IndexByte_range (b : list byte) (c : byte) :
  -1 <= bytes.IndexByte b c < bytes.Len b.
Proof.
  unfold bytes.Len. induction b as [|x b IH]; simpl; [lia|].
  destruct (decide (x = c)); [lia|].
  destruct (bytes.IndexByte b c <? 0) eqn:E; lia.
Qed.

Lemma IndexByte_cons (x : byte) (b : list byte) (c : byte) :
  bytes.IndexByte (x :: b) c =
  if decide (x = c) then 0
  else if bytes.IndexByte b c <? 0 then -1 else bytes.IndexByte b c + 1.
Proof. reflexivity. Qed.

Lemma IndexByte_take (b : list byte) (c : byte) (n : nat) :
  bytes.IndexByte (take n b) c =
  if bytes.IndexByte b c <? Z.of_nat n then bytes.IndexByte b c else -1.
Proof.
  revert n. induction b as [|x b IH]; intros n.
  - rewrite take_nil. simpl. destruct (-1 <? Z.of_nat n); reflexivity.
  - destruct n as [|n].
    + pose proof (IndexByte_range (x :: b) c) as R.
      rewrite take_0. change (bytes.IndexByte [] c) with (-1).
      destruct (Z.ltb_spec (bytes.IndexByte (x :: b) c) (Z.of_nat 0)); lia.
    + rewrite firstn_cons, !IndexByte_cons, IH.
      pose proof (IndexByte_range b c) as R.
      destruct (decide (x = c)).
      * destruct (Z.ltb_spec 0 (Z.of_nat (S n))); lia.
      * destruct (Z.ltb_spec (bytes.IndexByte b c) 0);
          destruct (Z.ltb_spec (bytes.IndexByte b c) (Z.of_nat n));
          repeat
            match goal with
            | |- context [?a <? ?b] => destruct (Z.ltb_spec a b)
            end; lia.
Qed.

(** The byte at a found index is the one looked for, and none before it
    is. *)
Lemma IndexByte_found (b : list byte) (c : byte) (i : Z) :
  0 <= i -> bytes.IndexByte b c = i ->
  b !! Z.to_nat i = Some c /\ c ∉ take (Z.to_nat i) b.
Proof.
  revert i. induction b as [|x b IH]; intros i Hi H; simpl in H; [lia|].
  destruct (decide (x = c)) as [->|Hne].
  - subst i. simpl. split; [reflexivity | apply not_elem_of_nil].
  - destruct (bytes.IndexByte b c <? 0) eqn:E; [lia|].
    destruct (IH (i - 1)) as [H1 H2]; [lia | lia |].
    replace (Z.to_nat i) with (S (Z.to_nat (i - 1))) by lia.
    simpl. split; [exact H1|].
    rewrite not_elem_of_cons. split; [congruence | exact H2].
Qed.

Lemma IndexByte_absent (b : list byte) (c : byte) :
  bytes.IndexByte b c = -1 <-> c ∉ b.
Proof.
  induction b as [|x b IH]; simpl.
  - split; [intros _; apply not_elem_of_nil | reflexivity].
  - pose proof (IndexByte_range b c) as R.
    destruct (decide (x = c)) as [->|Hne].
    + split; [lia | intros H; exfalso; apply H; left].
    + rewrite not_elem_of_cons.
      destruct (bytes.IndexByte b c <? 0) eqn:E.
      * split; [intros _; split; [congruence | apply IH; lia] | reflexivity].
      * split; [lia | intros [_ H]; apply IH in H; lia].
Qed.

(** ** [truncate] *)

(** What [truncate] returns, by the cap and the first newline inside
    it. *)
Lemma truncate_cases (buf : list byte) :
  let capped := take (Z.to_nat MaxStderrBytes) buf in
  let i := bytes.IndexByte capped newline in
  truncate buf =
  if 0 <? i
  then take (Z.to_nat i) capped ++
       (if (MaxStderrBytes <? bytes.Len buf) || (i <? bytes.Len capped - 1)
        then marker else [])
  else capped ++ (if MaxStderrBytes <? bytes.Len buf then marker else []).
Proof.
  intros capped i. unfold truncate, bytes.Truncate, bytes.WriteString.
  destruct (Z.ltb_spec MaxStderrBytes (bytes.Len buf)) as [Hover|Hfit].
  - fold capped. fold i. destruct (0 <? i); [|reflexivity].
    destruct (i <? bytes.Len capped - 1); reflexivity.
  - assert (capped = buf) as Hc.
    { unfold capped. apply take_ge. unfold bytes.Len in Hfit. lia. }
    subst i. rewrite Hc. clear Hc capped.
    destruct (0 <? bytes.IndexByte buf newline); [|symmetry; apply app_nil_r].
    destruct (bytes.IndexByte buf newline <? bytes.Len buf - 1);
      [reflexivity | symmetry; apply app_nil_r].
Qed.

(** The output never exceeds the cap by more than the marker. *)
Lemma truncate_length (buf : list byte) :
  bytes.Len (truncate buf) <= MaxStderrBytes + 3.
Proof.
  rewrite truncate_cases. cbv zeta. unfold bytes.Len, MaxStderrBytes.
  repeat match goal with
         | |- context [if ?c then _ else _] => destruct c
         end;
    rewrite ?length_app, ?length_take;
    change (length marker) with 3%nat; change (length (@nil byte)) with 0%nat;
    lia.
Qed.

(** A buffer that begins with a newline and goes on: the input at which
    the first-line cut is not taken. *)
Definition leading_newline_input : list byte := newline :: bytes_of "abc".

(** C1, as stated, fails: in the buffer of a newline followed by "abc"
    the first newline stands before the last byte, yet [truncate] returns
    the buffer as it is, not its (empty) first line and the marker. *)
Lemma truncate_first_line_counterexample :
  0 <= bytes.IndexByte leading_newline_input newline
    < bytes.Len leading_newline_input - 1 /\
  truncate leading_newline_input = leading_newline_input /\
  truncate leading_newline_input <>
    take (Z.to_nat (bytes.IndexByte leading_newline_input newline))
      leading_newline_input ++ marker.
Proof.
  split; [vm_compute; split; [discriminate | reflexivity]|].
  split; [reflexivity | vm_compute; discriminate].
Qed.

(** C1 (amended): with [i] the index of the first newline of the buffer,
    - when [i] is strictly positive and before the last byte, the result
      is the first line, capped at 512 bytes, and the marker;
    - a buffer longer than 512 bytes is cut at the 512-byte boundary and
      gets the marker: the result is at most 512 bytes of the input and
      the marker, and exactly the first 512 when no newline stands at a
      positive index below 512;
    - a buffer of at most 512 bytes with no newline is returned as it
      is. *)
Theorem truncate_policy (buf : list byte) :
  let i := bytes.IndexByte buf newline in
  (0 < i < bytes.Len buf - 1 ->
   truncate buf = take (Z.to_nat (Z.min i MaxStderrBytes)) buf ++ marker) /\
  (MaxStderrBytes < bytes.Len buf ->
   exists k, 0 <= k <= MaxStderrBytes /\
             truncate buf = take (Z.to_nat k) buf ++ marker) /\
  (MaxStderrBytes < bytes.Len buf -> ~ 0 < i < MaxStderrBytes ->
   truncate buf = take (Z.to_nat MaxStderrBytes) buf ++ marker) /\
  (bytes.Len buf <= MaxStderrBytes -> i < 0 -> truncate buf = buf).
Proof.
  intros i.
  pose proof (truncate_cases buf) as T. cbv zeta in T.
  rewrite IndexByte_take in T. fold i in T.
  pose proof (IndexByte_range buf newline) as R. fold i in R.
  assert (bytes.Len (take (Z.to_nat MaxStderrBytes) buf) =
          Z.min MaxStderrBytes (bytes.Len buf)) as L.
  { unfold bytes.Len. rewrite length_take. unfold MaxStderrBytes. lia. }
  rewrite L in T. rewrite Z2Nat.id in T by (unfold MaxStderrBytes; lia).
  assert (forall n m : Z, 0 <= n -> 0 <= m ->
            take (Z.to_nat n) (take (Z.to_nat m) buf) =
            take (Z.to_nat (Z.min n m)) buf) as TT.
  { intros n m Hn Hm. rewrite take_take. f_equal. lia. }
  unfold MaxStderrBytes in *.
  repeat split.
  - intros Hi. rewrite T.
    destruct (Z.ltb_spec i 512) as [Hlt|Hge].
    + replace (0 <? i) with true by lia.
      rewrite TT by lia.
      replace ((512 <? bytes.Len buf) || (i <? Z.min 512 (bytes.Len buf) - 1))
        with true; [reflexivity|].
      symmetry. apply orb_true_iff.
      destruct (Z.ltb_spec 512 (bytes.Len buf)); [left; reflexivity|].
      right. lia.
    + replace (0 <? -1) with false by reflexivity.
      replace (512 <? bytes.Len buf) with true by lia.
      replace (Z.min i 512) with 512 by lia. reflexivity.
  - intros Hover. rewrite T.
    replace (512 <? bytes.Len buf) with true by lia. simpl orb.
    destruct (Z.ltb_spec i 512) as [Hlt|Hge].
    + destruct (Z.ltb_spec 0 i) as [Hpos|Hnp].
      * exists (Z.min i 512). split; [lia|]. rewrite TT by lia. reflexivity.
      * exists 512. split; [lia | reflexivity].
    + exists 512. split; [lia | reflexivity].
  - intros Hover Hno. rewrite T.
    replace (512 <? bytes.Len buf) with true by lia.
    destruct (Z.ltb_spec i 512) as [Hlt|Hge]; [|reflexivity].
    replace (0 <? i) with false by lia. reflexivity.
  - intros Hfit Hnone. rewrite T.
    replace (512 <? bytes.Len buf) with false by lia.
    replace (i <? 512) with true by lia.
    replace (0 <? i) with false by lia.
    rewrite app_nil_r. apply take_ge. unfold bytes.Len in Hfit. lia.
Qed.

(** A two-line buffer, a buffer of 600 bytes and a short one-line
    buffer. *)
Definition two_lines : list byte := bytes_of "abc" ++ newline :: bytes_of "def".
Definition long_line : list byte := repeat Byte.x61 600.
Definition short_line : list byte := bytes_of "hello world".

Lemma truncate_policy_witness :
  truncate two_lines = bytes_of "abc" ++ marker /\
  truncate long_line = repeat Byte.x61 512 ++ marker /\
  truncate short_line = short_line.
Proof.
  split; [|split].
  - refine (proj1 (truncate_policy two_lines) _).
    vm_compute. split; reflexivity.
  - refine (proj1 (proj2 (proj2 (truncate_policy long_line))) _ _).
    + vm_compute. reflexivity.
    + vm_compute. intros [H _]. discriminate H.
  - refine (proj2 (proj2 (proj2 (truncate_policy short_line))) _ _).
    + vm_compute. discriminate.
    + vm_compute. reflexivity.
Defined.

(** C9: a buffer that begins with a newline has its first newline at
    index 0, and [truncate] takes no first-line cut there: what follows
    the leading newline stays, subject only to the 512-byte cap (with
    the marker when the cap cut). *)
Theorem truncate_leading_newline (rest : list byte) :
  bytes.IndexByte (newline :: rest) newline = 0 /\
  truncate (newline :: rest) =
  if MaxStderrBytes <? bytes.Len (newline :: rest)
  then newline :: take (Z.to_nat (MaxStderrBytes - 1)) rest ++ marker
  else newline :: rest.
Proof.
  split; [reflexivity|].
  rewrite truncate_cases. cbv zeta.
  change (Z.to_nat MaxStderrBytes) with (S (Z.to_nat (MaxStderrBytes - 1))).
  rewrite firstn_cons.
  change (bytes.IndexByte (newline :: ?l) newline) with 0.
  replace (bytes.IndexByte (newline :: take (Z.to_nat (MaxStderrBytes - 1)) rest)
             newline) with 0 by reflexivity.
  change (0 <? 0) with false. cbv iota.
  destruct (Z.ltb_spec MaxStderrBytes (bytes.Len (newline :: rest))) as [H|H].
  - reflexivity.
  - rewrite app_nil_r. f_equal. apply take_ge.
    unfold bytes.Len, MaxStderrBytes in *. simpl length in H. lia.
Qed.

(** ** [removeCarriageReturns] *)

(** What one read returns: the buffer is what was read and what is left;
    a read that met the end holds no delimiter, one that did not ends
    with the first delimiter. *)
Lemma ReadBytes_split (b : list byte) (d : byte) :
  forall line eof rest,
    bytes.ReadBytes b d = (line, eof, rest) ->
    b = line ++ rest /\
    if eof then rest = [] /\ d ∉ line
    else exists l, line = l ++ [d] /\ d ∉ l.
Proof.
  induction b as [|x b IH]; intros line eof rest H; simpl in H.
  - inversion H; subst. split; [reflexivity|].
    split; [reflexivity | apply not_elem_of_nil].
  - destruct (decide (x = d)) as [->|Hne].
    + inversion H; subst. split; [reflexivity|].
      exists []. split; [reflexivity | apply not_elem_of_nil].
    + destruct (bytes.ReadBytes b d) as [[line' eof'] rest'] eqn:E.
      inversion H; subst. destruct (IH _ _ _ eq_refl) as [Hb Hk].
      split; [simpl; congruence|].
      destruct eof.
      * destruct Hk as [-> Hk]. split; [reflexivity|].
        rewrite not_elem_of_cons. split; [congruence | exact Hk].
      * destruct Hk as [l [-> Hk]]. exists (x :: l).
        split; [reflexivity|].
        rewrite not_elem_of_cons. split; [congruence | exact Hk].
Qed.

Lemma filter_not_cr_id (l : list byte) :
  carriage_return ∉ l -> filter not_cr l = l.
Proof.
  induction l as [|x l IH]; intros H; [reflexivity|].
  rewrite not_elem_of_cons in H. destruct H as [Hx Hl].
  rewrite filter_cons_True by (unfold not_cr; congruence).
  f_equal. auto.
Qed.

(** The loop copies the buffer without its carriage returns. *)
Lemma removeCarriageReturns_loop_filter (b buf : list byte) :
  removeCarriageReturns_loop b buf = buf ++ filter not_cr b.
Proof.
  funelim (removeCarriageReturns_loop b buf);
    match goal with
    | E : bytes.ReadBytes _ _ = _ |- _ =>
        destruct (ReadBytes_split _ _ _ _ _ E) as [Hb Hk]
    end.
  - match type of Hk with if ?eof then _ else _ => destruct eof end.
    + destruct Hk as [-> _]. subst b. simpl. rewrite app_nil_r. reflexivity.
    + destruct Hk as [pre [Hl _]]. destruct pre; discriminate.
  - destruct Hk as [-> Hk]. rewrite app_nil_r in Hb. subst b.
    unfold bytes.Write, bytes.slice_to, bytes.Len.
    rewrite Nat2Z.id, firstn_all, filter_not_cr_id by exact Hk.
    reflexivity.
  - destruct Hk as [pre [Hl Hk]].
    match goal with
    | IH : forall _, removeCarriageReturns_loop _ _ = _ |- _ => rewrite IH
    | IH : removeCarriageReturns_loop _ _ = _ ++ _ |- _ => rewrite IH
    end.
    unfold bytes.Write, bytes.slice_to, bytes.Len.
    rewrite Hb, Hl.
    replace (Z.to_nat (Z.of_nat (length (pre ++ [carriage_return])) - 1))
      with (length pre) by (rewrite length_app; simpl; lia).
    rewrite take_app_length.
    rewrite <- !app_assoc. rewrite !filter_app.
    rewrite (filter_not_cr_id pre) by exact Hk.
    rewrite filter_cons_False
      by (unfold not_cr; intros Hx; apply Hx; reflexivity).
    rewrite filter_nil. reflexivity.
Qed.

Lemma truncate_nil : truncate [] = [].
Proof. reflexivity. Qed.

(** C7: on Windows [removeCarriageReturns] returns its input without
    its carriage-return bytes (the other bytes stay, in order), and on
    every other platform it returns its input; [Run] applies it to the
    captured standard output and to the captured standard error, and
    truncates the standard error after that. *)
Theorem carriage_returns_stripped `{env : GoEnv} :
  (forall b : list byte,
     removeCarriageReturns b =
     if decide (GOOS = "windows") then filter not_cr b else b) /\
  (forall command timeout split_cmd out stderr runErr,
     shellquote_Split command = (split_cmd, None) ->
     split_cmd <> [] ->
     RunTimeout split_cmd timeout = (out, stderr, runErr) ->
     CommandRunner_Run command timeout =
     (removeCarriageReturns out,
      truncate (removeCarriageReturns stderr),
      runErr)).
Proof.
  assert (forall b : list byte,
            removeCarriageReturns b =
            if decide (GOOS = "windows") then filter not_cr b else b) as Hrm.
  { intros b. unfold removeCarriageReturns.
    destruct (decide (GOOS = "windows")); [|reflexivity].
    apply removeCarriageReturns_loop_filter. }
  split; [exact Hrm|].
  intros command timeout split_cmd out stderr runErr Hsplit Hne Hrun.
  unfold CommandRunner_Run. rewrite Hsplit.
  rewrite bool_decide_eq_false_2 by (intros H; apply H; reflexivity).
  destruct split_cmd as [|w ws]; [congruence|].
  change (Z.of_nat (length (w :: ws)) =? 0) with false.
  cbn [orb]. rewrite Hrun.
  destruct (Z.ltb_spec 0 (bytes.Len stderr)) as [Hpos|Hzero]; [reflexivity|].
  destruct stderr; [|unfold bytes.Len in Hzero; simpl in Hzero; lia].
  rewrite (Hrm []). destruct (decide (GOOS = "windows")); reflexivity.
Qed.

Lemma carriage_returns_stripped_witness :
  @CommandRunner_Run windows_env "check" second =
    (bytes_of "ok" ++ [newline], bytes_of "warn" ++ marker, None) /\
  @removeCarriageReturns linux_env crlf_output = crlf_output.
Proof.
  split.
  - refine (eq_trans
              (proj2 (@carriage_returns_stripped windows_env)
                 "check" second ["check"%string] crlf_output crlf_errors None
                 _ _ _) _).
    + reflexivity.
    + discriminate.
    + reflexivity.
    + vm_compute. reflexivity.
  - exact (proj1 (@carriage_returns_stripped linux_env) crlf_output).
Defined.

(** ** [Write] *)

Section WriteProperties.
Context `{env : GoEnv}.

Lemma extractPorts_fields (fields : list Field) (exPorts : list string) :
  fold_left
    (fun exPorts f =>
       match Value f with
       | Float64 value => exPorts ++ [FormatFloat value]
       | _ => exPorts
       end) fields exPorts =
  exPorts ++ map FormatFloat (omap float64_of fields).
Proof.
  revert exPorts. induction fields as [|f fields IH]; intros exPorts; simpl.
  - symmetry. apply app_nil_r.
  - rewrite IH. unfold float64_of at 2.
    destruct (Value f); simpl; rewrite <- ?app_assoc; reflexivity.
Qed.

(** The ports extracted are the float64 field values, formatted, in
    order. *)
Lemma extractPorts_values (metrics : list Metric) :
  extractPorts metrics = map FormatFloat (float64_values metrics).
Proof.
  unfold extractPorts, float64_values.
  enough (forall exPorts,
            fold_left
              (fun exPorts m =>
                 fold_left
                   (fun exPorts f =>
                      match Value f with
                      | Float64 value => exPorts ++ [FormatFloat value]
                      | _ => exPorts
                      end) (FieldList m) exPorts) metrics exPorts =
            exPorts ++
            map FormatFloat
              (concat (map (fun m => omap float64_of (FieldList m)) metrics)))
    as H by apply (H []).
  induction metrics as [|m metrics IH]; intros exPorts; simpl.
  - symmetry. apply app_nil_r.
  - rewrite IH, extractPorts_fields, map_app, app_assoc. reflexivity.
Qed.

(** The loop that generates one command per port and binds it. *)
Lemma generate_commands (pattern : string) (ports : list string)
  (bound : gmap string string) (commands : list string) :
  fold_left
    (fun '(ex_cmds', commands) port =>
       let cmd := Sprintf pattern port in
       (<[cmd := port]> ex_cmds', commands ++ [cmd]))
    ports (bound, commands) =
  (fold_left (fun m port => <[Sprintf pattern port := port]> m) ports bound,
   commands ++ map (Sprintf pattern) ports).
Proof.
  revert bound commands.
  induction ports as [|port ports IH]; intros bound commands; simpl.
  - rewrite app_nil_r. reflexivity.
  - rewrite IH, <- app_assoc. reflexivity.
Qed.

(** A binding built by the loop maps a command to a port that generates
    it, or is one that was there before. *)
Lemma bound_port_generates (pattern : string) (ports : list string)
  (bound : gmap string string) (cmd port : string) :
  fold_left (fun m port => <[Sprintf pattern port := port]> m) ports bound
    !! cmd = Some port ->
  (port ∈ ports /\ Sprintf pattern port = cmd) \/ bound !! cmd = Some port.
Proof.
  revert bound. induction ports as [|p ports IH]; intros bound H; simpl in H.
  - right. exact H.
  - destruct (IH _ H) as [[Hin Heq]|Hb].
    + left. split; [right; exact Hin | exact Heq].
    + rewrite lookup_insert in Hb. case_decide.
      * inversion Hb; subst. left. split; [left | reflexivity].
      * right. exact Hb.
Qed.

(** The commands bound by the loop are the generated ones and those
    bound before. *)
Lemma bound_commands (pattern : string) (ports : list string)
  (bound : gmap string string) (cmd : string) :
  is_Some
    (fold_left (fun m port => <[Sprintf pattern port := port]> m) ports bound
       !! cmd) <->
  cmd ∈ map (Sprintf pattern) ports \/ is_Some (bound !! cmd).
Proof.
  revert bound. induction ports as [|p ports IH]; intros bound; simpl.
  - split; [intros H; right; exact H|].
    intros [H|H]; [inversion H | exact H].
  - rewrite IH, lookup_insert, elem_of_cons. case_decide.
    + subst cmd. split; [intros _; left; left; reflexivity|].
      intros _. right. eexists. reflexivity.
    + split.
      * intros [H'|H']; [left; right; exact H' | right; exact H'].
      * intros [[H'|H']|H']; [congruence | left; exact H' | right; exact H'].
Qed.

(** C2: a call of [Write] that extracts no float64 field value, or
    that finds no pattern configured, leaves the dynamic command list and
    the dynamic binding (with the rest of the state) as they were, and
    returns no error. *)
Theorem Write_without_ports_or_pattern (e : Exec2) (metrics : list Metric) :
  float64_values metrics = [] \/ Pattern e = "" ->
  ExCommands (Write e metrics).1 = ExCommands e /\
  ex_cmds (Write e metrics).1 = ex_cmds e /\
  Write e metrics = (e, None).
Proof.
  intros H.
  assert (Write e metrics = (e, None)) as W.
  { unfold Write. rewrite extractPorts_values.
    destruct H as [H|H].
    - rewrite H. simpl. rewrite andb_false_r. reflexivity.
    - rewrite bool_decide_eq_false_2 by (intros Hne; apply Hne; exact H).
      reflexivity. }
  rewrite W. repeat split.
Qed.

(** C3: a call of [Write] with a pattern configured and at least one
    float64 field value rebuilds the dynamic set from scratch. The new
    command list has one command per extracted value, in metric and then
    field order: the pattern with the formatted value substituted by
    [fmt.Sprintf]. The new binding binds exactly the commands of the new
    list, each to a port that generates it, so nothing of the earlier
    dynamic set is left. For the fields 9090.0 and 9091.0 and the
    pattern "probe %s" the list is "probe 9090", "probe 9091", as soon as
    Go formats the two values as "9090" and "9091" and substitutes them
    for the verb. *)
Theorem Write_rebuilds (e : Exec2) (metrics : list Metric) :
  Pattern e <> "" ->
  float64_values metrics <> [] ->
  let e' := (Write e metrics).1 in
  ExCommands e' =
    map (fun v => Sprintf (Pattern e) (FormatFloat v))
      (float64_values metrics) /\
  (forall cmd, is_Some (ex_cmds e' !! cmd) <-> cmd ∈ ExCommands e') /\
  (forall cmd port,
     ex_cmds e' !! cmd = Some port ->
     Sprintf (Pattern e) port = cmd /\
     port ∈ map FormatFloat (float64_values metrics)) /\
  (Pattern e = "probe %s" ->
   float64_values metrics = [9090%float; 9091%float] ->
   FormatFloat 9090%float = "9090" ->
   FormatFloat 9091%float = "9091" ->
   Sprintf "probe %s" "9090" = "probe 9090" ->
   Sprintf "probe %s" "9091" = "probe 9091" ->
   ExCommands e' = ["probe 9090"; "probe 9091"]%string) /\
  (Write e metrics).2 = None.
Proof.
  intros Hpat Hvals e'.
  assert (e' =
          {| Commands := Commands e; Command := Command e;
             Pattern := Pattern e; Ports := Ports e; cmds := cmds e;
             addedPattern := addedPattern e;
             ExCommands :=
               map (Sprintf (Pattern e))
                 (map FormatFloat (float64_values metrics));
             ex_cmds :=
               fold_left
                 (fun m port => <[Sprintf (Pattern e) port := port]> m)
                 (map FormatFloat (float64_values metrics)) ∅;
             Timeout := Timeout e; parser := parser e; runner := runner e |}
          /\ (Write e metrics).2 = None) as [He' Herr].
  { subst e'. unfold Write. rewrite extractPorts_values.
    rewrite bool_decide_eq_true_2 by exact Hpat.
    destruct (float64_values metrics) as [|v vs]; [congruence|].
    change (0 <? Z.of_nat (length (map FormatFloat (v :: vs)))) with true.
    cbn [andb]. rewrite generate_commands. split; reflexivity. }
  assert (ExCommands e' =
          map (fun v => Sprintf (Pattern e) (FormatFloat v))
            (float64_values metrics)) as Hlist.
  { rewrite He'. cbn [ExCommands]. rewrite map_map. reflexivity. }
  split; [exact Hlist|]. split; [|split; [|split; [|exact Herr]]].
  - intros cmd. rewrite He'. cbn [ex_cmds ExCommands].
    rewrite bound_commands. rewrite lookup_empty.
    split; [intros [H|[x H]]; [exact H | discriminate] | intros H; left; exact H].
  - intros cmd port. rewrite He'. cbn [ex_cmds]. intros H.
    destruct (bound_port_generates _ _ _ _ _ H) as [[Hin Heq]|Hb].
    + split; [exact Heq | exact Hin].
    + rewrite lookup_empty in Hb. discriminate.
  - intros Hp Hv F1 F2 S1 S2. rewrite Hlist, Hp, Hv. simpl.
    rewrite F1, F2, S1, S2. reflexivity.
Qed.

End WriteProperties.

Lemma Write_without_ports_or_pattern_witness :
  ExCommands (@Write linux_env probe_plugin no_float_batch).1
    = ["probe 1"%string] /\
  ex_cmds (@Write linux_env patternless_plugin ports_batch).1
    = {[ "probe 1"%string := "1"%string ]}.
Proof.
  split.
  - refine (proj1 (@Write_without_ports_or_pattern linux_env
                     probe_plugin no_float_batch _)).
    left. reflexivity.
  - refine (proj1 (proj2 (@Write_without_ports_or_pattern linux_env
                            patternless_plugin ports_batch _))).
    right. reflexivity.
Defined.

Lemma Write_rebuilds_witness :
  ExCommands (@Write linux_env probe_plugin ports_batch).1
    = ["probe 9090"; "probe 9091"]%string /\
  ex_cmds (@Write linux_env probe_plugin ports_batch).1 !! "probe 1"%string
    = None.
Proof.
  assert (Pattern probe_plugin <> "") as Hpat by discriminate.
  assert (float64_values ports_batch <> []) as Hvals by discriminate.
  pose proof (@Write_rebuilds linux_env probe_plugin ports_batch Hpat Hvals)
    as [Hlist [Hbound _]].
  split.
  - exact Hlist.
  - destruct (ex_cmds (@Write linux_env probe_plugin ports_batch).1
                !! "probe 1"%string) as [port|] eqn:E; [|reflexivity].
    exfalso.
    assert ("probe 1"%string ∈
            ExCommands (@Write linux_env probe_plugin ports_batch).1) as Hin.
    { apply Hbound. rewrite E. eexists. reflexivity. }
    rewrite Hlist in Hin. vm_compute in Hin.
    apply elem_of_cons in Hin as [Hin|Hin]; [discriminate|].
    apply elem_of_cons in Hin as [Hin|Hin]; [discriminate|].
    inversion Hin.
Defined.

(** ** Command resolution *)

Lemma Cut_None (s : string) (sep : ascii) :
  gostrings.Cut s sep = None <-> sep ∉ chars s.
Proof.
  unfold chars. induction s as [|c s IH]; simpl.
  - split; [intros _; apply not_elem_of_nil | reflexivity].
  - rewrite not_elem_of_cons. destruct (decide (c = sep)) as [->|Hne].
    + split; [discriminate | intros [H _]; congruence].
    + destruct (gostrings.Cut s sep) as [[before after]|].
      * split; [discriminate|]. intros [_ H]. apply IH in H. discriminate.
      * split; [intros _; split; [congruence | apply IH; reflexivity]
               | reflexivity].
Qed.

Lemma Cut_Some (s : string) (sep : ascii) (before after : string) :
  gostrings.Cut s sep = Some (before, after) <->
  s = before +:+ String sep after /\ sep ∉ chars before.
Proof.
  unfold chars. revert before. induction s as [|c s IH]; intros before; simpl.
  - split; [discriminate|]. intros [H _]. destruct before; discriminate.
  - destruct (decide (c = sep)) as [->|Hne].
    + split.
      * intros H. inversion H; subst. split; [reflexivity|].
        apply not_elem_of_nil.
      * intros [H Hn]. destruct before as [|b before]; simpl in *.
        -- inversion H; subst. reflexivity.
        -- inversion H; subst. exfalso. apply Hn. left.
    + destruct (gostrings.Cut s sep) as [[before' after']|] eqn:E.
      * split.
        -- intros H. inversion H; subst.
           destruct (proj1 (IH before') eq_refl) as [Hs Hn]. split.
           ++ simpl. rewrite Hs. reflexivity.
           ++ simpl. rewrite not_elem_of_cons. split; [congruence | exact Hn].
        -- intros [H Hn]. destruct before as [|b before]; simpl in *.
           ++ inversion H; subst. congruence.
           ++ inversion H; subst. rewrite not_elem_of_cons in Hn.
              destruct Hn as [_ Hn].
              pose proof (proj2 (IH before) (conj eq_refl Hn)) as IH'.
              inversion IH'; subst. reflexivity.
      * split; [discriminate|]. intros [H Hn].
        destruct before as [|b before]; simpl in *.
        -- inversion H; subst. congruence.
        -- inversion H; subst. rewrite not_elem_of_cons in Hn.
           destruct Hn as [_ Hn].
           pose proof (proj2 (IH before) (conj eq_refl Hn)) as IH'.
           discriminate.
Qed.

(** [strings.SplitN(pattern, " ", 2)] is the pattern when it holds no
    space, and otherwise the text before and the text after the first
    space. *)
Lemma SplitN_2 (s : string) (sep : ascii) :
  gostrings.SplitN s sep 2 =
  match gostrings.Cut s sep with
  | None => [s]
  | Some (before, after) => [before; after]
  end.
Proof.
  unfold gostrings.SplitN. simpl.
  destruct (gostrings.Cut s sep) as [[before after]|]; reflexivity.
Qed.

Section Resolution.
Context `{env : GoEnv}.

Lemma appendMatches_map (cmdAndArgs matches commands : list string) :
  appendMatches cmdAndArgs matches commands =
  commands ++
  map (fun match_ =>
         if Z.of_nat (length cmdAndArgs) =? 1 then match_
         else gostrings.Join [match_; nth 1 cmdAndArgs EmptyString] " ")
    matches.
Proof.
  unfold appendMatches. revert commands.
  induction matches as [|m matches IH]; intros commands; simpl.
  - symmetry. apply app_nil_r.
  - rewrite IH.
    destruct (Z.of_nat (length cmdAndArgs) =? 1);
      rewrite <- app_assoc; reflexivity.
Qed.

(** The loop carries the commands resolved so far along; what it adds
    does not depend on them. *)
Lemma resolve_from (patterns commands : list string) (acc : Accumulator) :
  fold_left resolvePattern patterns (commands, acc) =
  (commands ++ (resolveCommands patterns acc).1,
   (resolveCommands patterns acc).2).
Proof.
  unfold resolveCommands. revert commands acc.
  induction patterns as [|p patterns IH]; intros commands acc;
    cbn [fold_left].
  - cbn [fst snd]. rewrite app_nil_r. reflexivity.
  - assert (exists added acc',
              forall cs, resolvePattern (cs, acc) p = (cs ++ added, acc'))
      as [added [acc' Hstep]].
    { unfold resolvePattern.
      destruct (Z.of_nat (length (gostrings.SplitN p " " 2)) =? 0).
      - exists [], acc. intros cs. rewrite app_nil_r. reflexivity.
      - destruct (Glob (nth 0 (gostrings.SplitN p " " 2) EmptyString))
          as [matches [err|]].
        + exists [], (acc ++ [AddError err]). intros cs.
          rewrite app_nil_r. reflexivity.
        + destruct (Z.of_nat (length matches) =? 0).
          * exists [p], acc. reflexivity.
          * eexists _, acc. intros cs. rewrite appendMatches_map.
            reflexivity. }
    rewrite !Hstep. rewrite (IH (commands ++ added)), (IH ([] ++ added)).
    cbn [fst snd]. rewrite <- app_assoc. reflexivity.
Qed.

(** The patterns are resolved one after the other. *)
Lemma resolveCommands_app (before after : list string) (acc : Accumulator) :
  resolveCommands (before ++ after) acc =
  ((resolveCommands before acc).1 ++
   (resolveCommands after (resolveCommands before acc).2).1,
   (resolveCommands after (resolveCommands before acc).2).2).
Proof.
  unfold resolveCommands at 1. rewrite fold_left_app.
  fold (resolveCommands before acc).
  destruct (resolveCommands before acc) as [c1 a1]. apply resolve_from.
Qed.

Lemma resolveCommands_cons (pattern : string) (after : list string)
  (acc : Accumulator) :
  resolveCommands (pattern :: after) acc =
  ((resolvePattern ([], acc) pattern).1 ++
   (resolveCommands after (resolvePattern ([], acc) pattern).2).1,
   (resolveCommands after (resolvePattern ([], acc) pattern).2).2).
Proof.
  unfold resolveCommands at 1. cbn [fold_left].
  destruct (resolvePattern ([], acc) pattern) as [c1 a1]. apply resolve_from.
Qed.

(** The token is the pattern when it holds no space, and the text before
    its first space otherwise. *)
Lemma firstToken_no_space (pattern : string) :
  space ∉ chars pattern -> firstToken pattern = pattern.
Proof.
  intros H. unfold firstToken. rewrite SplitN_2.
  apply Cut_None in H. unfold space in H. rewrite H. reflexivity.
Qed.

Lemma firstToken_before_space (token rest : string) :
  space ∉ chars token ->
  firstToken (token +:+ String space rest) = token.
Proof.
  intros H. unfold firstToken. rewrite SplitN_2.
  pose proof (proj2 (Cut_Some _ space token rest) (conj eq_refl H)) as C.
  unfold space in *. rewrite C. reflexivity.
Qed.

(** What one pattern with its glob result adds. *)
Lemma resolvePattern_glob (pattern : string) (matches : list string)
  (commands : list string) (acc : Accumulator) :
  Glob (firstToken pattern) = (matches, None) ->
  resolvePattern (commands, acc) pattern =
  (commands ++
   match matches with
   | [] => [pattern]
   | _ =>
       map (fun match_ =>
              match gostrings.Cut pattern space with
              | None => match_
              | Some (_, rest) => match_ +:+ " " +:+ rest
              end) matches
   end, acc).
Proof.
  intros HG. unfold resolvePattern. unfold firstToken in HG.
  rewrite SplitN_2 in *. unfold space in *.
  destruct (gostrings.Cut pattern " ") as [[token rest]|] eqn:E;
    cbn [length Z.of_nat Z.eqb Pos.of_succ_nat nth] in *;
    rewrite HG; destruct matches as [|m matches]; try reflexivity;
    rewrite appendMatches_map; reflexivity.
Qed.

(** A spec either holds no space, or is a token without a space, a
    space, and a remainder. *)
Lemma spec_shape (spec : string) :
  space ∉ chars spec \/
  exists token rest,
    spec = token +:+ String space rest /\ space ∉ chars token.
Proof.
  destruct (gostrings.Cut spec space) as [[token rest]|] eqn:E.
  - right. exists token, rest. apply Cut_Some. exact E.
  - left. apply Cut_None. exact E.
Qed.

(** With one goroutine there is one order. *)
Lemma interleave_single {A : Type} (sched : list nat) (calls : list A) :
  interleave sched [calls] = calls.
Proof.
  revert calls. induction sched as [|k sched IH]; intros calls; simpl.
  - apply app_nil_r.
  - destruct k as [|k]; simpl.
    + destruct calls as [|x calls]; [apply IH|]. simpl. rewrite IH.
      reflexivity.
    + apply IH.
Qed.

(** C4 (amended): the token of a spec is the text before its first
    space (the byte 0x20; a tab or another whitespace does not end it),
    or the whole spec when it holds no space. A spec whose token has no
    glob match (and no glob error) is resolved to itself: the iteration
    of the loop appends the spec as it is and makes no call on the
    accumulator, so in a command list the spec stands for itself between
    what the specs before it and after it resolve to, in
    [readExCommandsLock] as in [Gather], whose cycle over that one spec
    runs that one command. *)
Theorem unmatched_spec_kept (spec : string) :
  Glob (firstToken spec) = ([], None) ->
  (forall commands acc,
     resolvePattern (commands, acc) spec = (commands ++ [spec], acc)) /\
  (forall before after acc,
     resolveCommands (before ++ spec :: after) acc =
     ((resolveCommands before acc).1 ++ [spec] ++
      (resolveCommands after (resolveCommands before acc).2).1,
      (resolveCommands after (resolveCommands before acc).2).2)) /\
  (forall e acc,
     ExCommands e = [spec] -> readExCommandsLock e acc = ([spec], acc)) /\
  (forall sched e acc,
     Commands e = [spec] -> Command e = "" -> ExCommands e = [] ->
     Gather sched e acc = (e, acc ++ ProcessCommand e spec [], None)) /\
  (space ∉ chars spec -> firstToken spec = spec) /\
  (forall token rest,
     spec = token +:+ String space rest -> space ∉ chars token ->
     firstToken spec = token).
Proof.
  intros HG.
  assert (forall commands acc,
            resolvePattern (commands, acc) spec = (commands ++ [spec], acc))
    as Hstep.
  { intros commands acc. apply (resolvePattern_glob _ _ _ _ HG). }
  split; [exact Hstep|]. split; [|split; [|split; [|split]]].
  - intros before after acc.
    rewrite resolveCommands_app, resolveCommands_cons, Hstep.
    reflexivity.
  - intros e acc He. unfold readExCommandsLock. rewrite He.
    unfold resolveCommands. cbn [fold_left]. apply Hstep.
  - intros sched e acc Hc Hl Hx. unfold Gather.
    destruct (decide (Command e <> "")) as [Hne|_]; [congruence|].
    unfold readExCommandsLock. rewrite Hc, Hx.
    unfold resolveCommands. cbn [fold_left]. rewrite Hstep.
    cbn [app map]. rewrite interleave_single. reflexivity.
  - apply firstToken_no_space.
  - intros token rest -> Hs. apply firstToken_before_space. exact Hs.
Qed.

(** C5 (amended): the token of a spec is the text before its first
    space (the byte 0x20; a tab or another whitespace does not end it),
    or the whole spec when it holds no space. A spec whose token has
    N >= 1 glob matches is resolved to N commands, one per match in match
    order: the match itself when the spec holds no space (no trailing
    arguments), and otherwise the match, one space, and what follows the
    first space of the spec. The iteration makes no call on the
    accumulator, and in a command list these commands stand where the
    spec stood. *)
Theorem matched_spec_expanded (spec : string) (matches : list string) :
  Glob (firstToken spec) = (matches, None) ->
  matches <> [] ->
  exists resolved : list string,
    length resolved = length matches /\
    (forall commands acc,
       resolvePattern (commands, acc) spec = (commands ++ resolved, acc)) /\
    (forall before after acc,
       resolveCommands (before ++ spec :: after) acc =
       ((resolveCommands before acc).1 ++ resolved ++
        (resolveCommands after (resolveCommands before acc).2).1,
        (resolveCommands after (resolveCommands before acc).2).2)) /\
    (space ∉ chars spec -> resolved = matches) /\
    (forall token rest,
       spec = token +:+ String space rest -> space ∉ chars token ->
       resolved = map (fun match_ => match_ +:+ " " +:+ rest) matches).
Proof.
  intros HG Hne.
  pose (resolved :=
          map (fun match_ =>
                 match gostrings.Cut spec space with
                 | None => match_
                 | Some (_, rest) => match_ +:+ " " +:+ rest
                 end) matches).
  assert (forall commands acc,
            resolvePattern (commands, acc) spec = (commands ++ resolved, acc))
    as Hstep.
  { intros commands acc. rewrite (resolvePattern_glob _ _ _ _ HG).
    destruct matches; [congruence | reflexivity]. }
  exists resolved. split; [apply length_map|]. split; [exact Hstep|].
  split; [|split].
  - intros before after acc.
    rewrite resolveCommands_app, resolveCommands_cons, Hstep.
    reflexivity.
  - intros Hs. apply Cut_None in Hs. subst resolved. rewrite Hs.
    apply map_id.
  - intros token rest Hspec Hs. subst resolved.
    rewrite (proj2 (Cut_Some _ _ _ _) (conj Hspec Hs)). reflexivity.
Qed.

End Resolution.

Lemma unmatched_spec_kept_witness :
  @resolveCommands collectors_env ["nonexistent_glob_*.sh"%string] []
  = (["nonexistent_glob_*.sh"%string], []).
Proof.
  exact (proj1 (proj2 (@unmatched_spec_kept collectors_env
                         "nonexistent_glob_*.sh" eq_refl)) [] [] []).
Defined.

Lemma matched_spec_expanded_witness :
  @resolveCommands collectors_env ["/tmp/collect_*.sh --fast"%string] []
  = (["/tmp/collect_a.sh --fast"; "/tmp/collect_b.sh --fast"]%string, []).
Proof.
  assert (["/tmp/collect_a.sh"; "/tmp/collect_b.sh"]%string <> []) as Hne
    by discriminate.
  destruct (@matched_spec_expanded collectors_env
              "/tmp/collect_*.sh --fast"
              ["/tmp/collect_a.sh"; "/tmp/collect_b.sh"]%string eq_refl Hne)
    as [resolved [_ [_ [Hall [_ Hargs]]]]].
  rewrite (Hargs "/tmp/collect_*.sh" "--fast" eq_refl) in Hall.
  - exact (Hall [] [] []).
  - vm_compute. intros H.
    repeat (apply elem_of_cons in H as [H|H]; [discriminate|]).
    inversion H.
Defined.

(** C4, as stated, fails: the first whitespace-delimited token of the
    spec "x", tab, "[" is "x", which matches no file and is no malformed
    pattern, yet the spec is not kept: the code globs the text before the
    first space, here the whole spec, which is malformed, so resolution
    emits no command and reports the glob error. *)
Lemma unmatched_whitespace_token_counterexample :
  firstWhitespaceToken tab_bracket_spec = "x"%string /\
  @Glob strict_env "x" = ([], None) /\
  @resolveCommands strict_env [tab_bracket_spec] [] =
    ([], [AddError bad_pattern]) /\
  @resolveCommands strict_env [tab_bracket_spec] [] <>
    ([tab_bracket_spec], []).
Proof.
  split; [reflexivity|]. split; [reflexivity|].
  split; [reflexivity | vm_compute; discriminate].
Qed.

(** C5, as stated, fails: the first whitespace-delimited token of the
    spec "/tmp/collect_*.sh", tab, "--fast" is "/tmp/collect_*.sh",
    which has two matches, yet resolution emits one command, the spec as
    it is: the code globs the text before the first space, here the
    whole spec, which matches no file. *)
Lemma matched_whitespace_token_counterexample :
  firstWhitespaceToken tab_arguments_spec = "/tmp/collect_*.sh"%string /\
  @Glob collectors_env "/tmp/collect_*.sh" =
    (["/tmp/collect_a.sh"; "/tmp/collect_b.sh"]%string, None) /\
  @resolveCommands collectors_env [tab_arguments_spec] [] =
    ([tab_arguments_spec], []).
Proof.
  split; [reflexivity|]. split; reflexivity.
Qed.

(** ** Metric tagging *)

Section Tagging.
Context `{env : GoEnv}.

Lemma AddTag_lookup (key value : string) (m : Metric) :
  Tags (AddTag key value m) !! key = Some value.
Proof. apply lookup_insert_eq. Qed.

Lemma AddTag_lookup_ne (key value other : string) (m : Metric) :
  key <> other -> Tags (AddTag key value m) !! other = Tags m !! other.
Proof. intros H. apply lookup_insert_ne. exact H. Qed.

(** What [addPatternCommands] does when it runs: one command per static
    port, bound to it, appended to the command list. *)
Lemma addPatternCommands_runs (e : Exec2) :
  Pattern e <> "" -> Ports e <> "" -> addedPattern e = false ->
  let ports := gostrings.Split (Ports e) "," in
  cmds (addPatternCommands e) =
    fold_left (fun m port => <[Sprintf (Pattern e) port := port]> m) ports ∅ /\
  Commands (addPatternCommands e) =
    Commands e ++ map (Sprintf (Pattern e)) ports /\
  ex_cmds (addPatternCommands e) = ex_cmds e.
Proof.
  intros Hpat Hports Hadd ports. unfold addPatternCommands.
  rewrite !bool_decide_eq_true_2 by assumption. rewrite Hadd.
  cbn [andb negb]. fold ports.
  assert (forall (bound : gmap string string) (commands : list string)
                 (added : bool),
            fold_left
              (fun '(cmds', commands, added) port =>
                 let cmd := Sprintf (Pattern e) port in
                 (<[cmd := port]> cmds', commands ++ [cmd], true))
              ports (bound, commands, added) =
            (fold_left (fun m port => <[Sprintf (Pattern e) port := port]> m)
               ports bound,
             commands ++ map (Sprintf (Pattern e)) ports,
             match ports with [] => added | _ => true end)) as Hloop.
  { clear. induction ports as [|port ports IH]; intros bound commands added.
    - simpl. rewrite app_nil_r. reflexivity.
    - cbn [fold_left map]. rewrite IH, <- app_assoc.
      destruct ports; reflexivity. }
  rewrite Hloop. repeat split.
Qed.

Lemma AddTag_twice (key first last : string) (m : Metric) :
  AddTag key last (AddTag key first m) = AddTag key last m.
Proof.
  unfold AddTag. cbn [Name Tags Fields]. rewrite insert_insert_eq.
  reflexivity.
Qed.

(** What [addMetric] hands to the accumulator, by the two lookups. *)
Lemma addMetric_cases (e : Exec2) (command : string) (metric : Metric)
  (acc : Accumulator) :
  addMetric e command metric acc =
  acc ++
  [AddMetric
     match cmds e !! command, ex_cmds e !! command with
     | Some static, Some dynamic =>
         AddTag "port" dynamic (AddTag "port" static metric)
     | Some static, None => AddTag "port" static metric
     | None, Some dynamic => AddTag "port" dynamic metric
     | None, None => metric
     end].
Proof.
  unfold addMetric, addExMetric.
  destruct (cmds e !! command), (ex_cmds e !! command); reflexivity.
Qed.

(** The metrics of a command that ran and parsed, with a parser that is
    not the Nagios one, reach the accumulator through [addMetric], one
    after the other. *)
Lemma ProcessCommand_metrics (e : Exec2) (command : string)
  (acc : Accumulator) (out errbuf : list byte) (metrics : list Metric) :
  isNagiosParser (parser e) = false ->
  Run (runner e) command (Timeout e) = (out, errbuf, None) ->
  Parse (parser e) out = (metrics, None) ->
  ProcessCommand e command acc =
  fold_left (fun acc m => addMetric e command m acc) metrics acc.
Proof.
  intros Hn Hrun Hparse. unfold ProcessCommand.
  rewrite Hn, Hrun, Hparse. reflexivity.
Qed.

(** C6: the metric [addMetric] hands to the accumulator is the metric
    with the "port" tag set to the parameter bound to the command, when
    the static or the dynamic binding has the command as a key, and the
    metric as it was when neither has; every metric a command produces
    goes that way. With the pattern "check_port %s" and the static ports
    "80,443", [Init] binds "check_port 80" to "80" and "check_port 443"
    to "443" (as soon as Go substitutes the two ports for the verb), and
    the metrics of the two commands get the tags port=80 and port=443. *)
Theorem port_tag_attached :
  (forall e command metric acc,
     addMetric e command metric acc =
       acc ++ [AddMetric (withPortTag e command metric)] /\
     (forall port,
        cmds e !! command = Some port \/ ex_cmds e !! command = Some port ->
        exists bound,
          (cmds e !! command = Some bound \/
           ex_cmds e !! command = Some bound) /\
          Tags (withPortTag e command metric) !! "port" = Some bound) /\
     (cmds e !! command = None -> ex_cmds e !! command = None ->
      withPortTag e command metric = metric)) /\
  (forall e command acc out errbuf metrics,
     isNagiosParser (parser e) = false ->
     Run (runner e) command (Timeout e) = (out, errbuf, None) ->
     Parse (parser e) out = (metrics, None) ->
     ProcessCommand e command acc =
       acc ++ map (fun m => AddMetric (withPortTag e command m)) metrics) /\
  (forall e0,
     Pattern e0 = "check_port %s" -> Ports e0 = "80,443" ->
     addedPattern e0 = false -> ex_cmds e0 = ∅ ->
     Sprintf "check_port %s" "80" = "check_port 80" ->
     Sprintf "check_port %s" "443" = "check_port 443" ->
     let e1 := (Init e0).1 in
     cmds e1 =
       {[ "check_port 80" := "80"; "check_port 443" := "443" ]} /\
     forall metric acc,
       addMetric e1 "check_port 80" metric acc =
         acc ++ [AddMetric (AddTag "port" "80" metric)] /\
       addMetric e1 "check_port 443" metric acc =
         acc ++ [AddMetric (AddTag "port" "443" metric)]).
Proof.
  assert (forall e command metric acc,
            addMetric e command metric acc =
            acc ++ [AddMetric (withPortTag e command metric)]) as Hadd.
  { intros e command metric acc. rewrite addMetric_cases.
    unfold withPortTag, boundPort.
    destruct (cmds e !! command), (ex_cmds e !! command);
      rewrite ?AddTag_twice; reflexivity. }
  split; [|split].
  - intros e command metric acc. split; [apply Hadd|]. split.
    + intros port Hbound. unfold withPortTag, boundPort.
      destruct (ex_cmds e !! command) as [dynamic|] eqn:Ed.
      * exists dynamic. split; [right; reflexivity | apply AddTag_lookup].
      * destruct Hbound as [Hs|Hd]; [|discriminate]. rewrite Hs.
        exists port. split; [left; reflexivity | apply AddTag_lookup].
    + intros Hs Hd. unfold withPortTag, boundPort. rewrite Hd, Hs.
      reflexivity.
  - intros e command acc out errbuf metrics Hn Hrun Hparse.
    rewrite (ProcessCommand_metrics _ _ _ _ _ _ Hn Hrun Hparse).
    clear Hrun Hparse. revert acc.
    induction metrics as [|m metrics IH]; intros acc; cbn [fold_left map].
    + symmetry. apply app_nil_r.
    + rewrite IH, Hadd, <- app_assoc. reflexivity.
  - intros e0 Hpat Hports Hadded Hx S80 S443 e1.
    assert (Pattern e0 <> "") as Hp by (rewrite Hpat; discriminate).
    assert (Ports e0 <> "") as Hq by (rewrite Hports; discriminate).
    destruct (addPatternCommands_runs e0 Hp Hq Hadded) as [Hc [_ He]].
    rewrite Hports, Hpat in Hc.
    change (gostrings.Split "80,443" ",") with ["80"; "443"]%string in Hc.
    cbn [fold_left] in Hc. rewrite S80, S443 in Hc.
    assert (cmds e1 =
            {[ "check_port 80" := "80"; "check_port 443" := "443" ]}) as Hc1.
    { subst e1. cbn [Init fst]. rewrite Hc.
      apply insert_insert_ne. discriminate. }
    split; [exact Hc1|].
    intros metric acc. rewrite !addMetric_cases.
    subst e1. cbn [Init fst] in *. rewrite He, Hx, Hc1, !lookup_empty.
    split; reflexivity.
Qed.

(** C10: for a command that is a key of both bindings, [addMetric] adds
    the static "port" tag first and the dynamic one after it, so the
    "port" tag of the metric handed to the accumulator is the dynamic
    binding's parameter. *)
Theorem dynamic_port_wins (e : Exec2) (command : string) (metric : Metric)
  (acc : Accumulator) (static dynamic : string) :
  cmds e !! command = Some static ->
  ex_cmds e !! command = Some dynamic ->
  addMetric e command metric acc =
    acc ++ [AddMetric (AddTag "port" dynamic (AddTag "port" static metric))] /\
  Tags (AddTag "port" dynamic (AddTag "port" static metric)) !! "port"
    = Some dynamic.
Proof.
  intros Hs Hd. split.
  - rewrite addMetric_cases, Hs, Hd. reflexivity.
  - apply AddTag_lookup.
Qed.

End Tagging.

Lemma port_tag_attached_witness :
  cmds (@Init linux_env check_port_plugin).1 =
    {[ "check_port 80"%string := "80"%string;
       "check_port 443"%string := "443"%string ]} /\
  @addMetric (@Init linux_env check_port_plugin).1 "check_port 443"
    sample_metric [] =
    [AddMetric (AddTag "port" "443" sample_metric)].
Proof.
  pose proof (proj2 (proj2 (@port_tag_attached linux_env)) check_port_plugin
                eq_refl eq_refl eq_refl eq_refl eq_refl eq_refl)
    as [Hbind Htag].
  split; [exact Hbind | exact (proj2 (Htag sample_metric []))].
Defined.

Lemma dynamic_port_wins_witness :
  Tags (AddTag "port" "81" (AddTag "port" "80" sample_metric)) !! "port"%string
    = Some "81"%string /\
  addMetric twice_bound_plugin "check" sample_metric [] =
    [AddMetric (AddTag "port" "81" (AddTag "port" "80" sample_metric))].
Proof.
  pose proof (dynamic_port_wins twice_bound_plugin "check" sample_metric []
                "80" "81" eq_refl eq_refl) as [Hcall Htag].
  split; [exact Htag | exact Hcall].
Defined.

(** ** The collection cycle *)

Section CycleProperties.
Context `{env : GoEnv}.


(** The glob errors are added to the accumulator, which plays no other
    part in the resolution. *)
Lemma resolveCommands_acc (patterns : list string) (acc : Accumulator) :
  resolveCommands patterns acc =
  (resolvedCommands patterns, acc ++ globCalls patterns).
Proof.
  unfold resolvedCommands, globCalls. revert acc.
  induction patterns as [|p patterns IH]; intros acc.
  - unfold resolveCommands. simpl. rewrite app_nil_r. reflexivity.
  - rewrite !resolveCommands_cons.
    assert (exists added calls,
              forall a, resolvePattern ([], a) p = (added, a ++ calls))
      as [added [calls Hstep]].
    { unfold resolvePattern.
      destruct (Z.of_nat (length (gostrings.SplitN p " " 2)) =? 0).
      - exists [], []. intros a. rewrite app_nil_r. reflexivity.
      - destruct (Glob (nth 0 (gostrings.SplitN p " " 2) EmptyString))
          as [matches [err|]].
        + exists [], [AddError err]. reflexivity.
        + destruct (Z.of_nat (length matches) =? 0).
          * exists [p], []. intros a. rewrite app_nil_r. reflexivity.
          * eexists _, []. intros a. rewrite app_nil_r. reflexivity. }
    rewrite !Hstep. cbn [fst snd].
    rewrite (IH (acc ++ calls)), (IH ([] ++ calls)). cbn [fst snd].
    rewrite <- app_assoc. reflexivity.
Qed.




(** One cycle: the legacy command is folded in, the two lists are
    resolved, every resolved command is processed, and no error is
    returned. *)
Lemma Gather_cycle (sched : list nat) (e : Exec2) (acc : Accumulator) :
  Gather sched e acc =
  (legacyFolded e,
   acc ++ globCalls (Commands (legacyFolded e)) ++
   globCalls (ExCommands (legacyFolded e)) ++
   interleave sched
     (map (fun command => ProcessCommand (legacyFolded e) command [])
        (cycleCommands e)),
   None).
Proof.
  assert (exists e1,
            e1 = (if decide (Command e <> "")
                  then {| Commands := Commands e ++ [Command e];
                          Command := ""; Pattern := Pattern e;
                          Ports := Ports e; cmds := cmds e;
                          addedPattern := addedPattern e;
                          ExCommands := ExCommands e; ex_cmds := ex_cmds e;
                          Timeout := Timeout e; parser := parser e;
                          runner := runner e |}
                  else e) /\ e1 = legacyFolded e) as [e1 [He1 Hl]].
  { eexists. split; [reflexivity|]. unfold legacyFolded.
    destruct (decide (Command e <> "")) as [Hne|Heq]; [reflexivity|].
    apply dec_stable in Heq. rewrite app_nil_r, <- Heq.
    destruct e; reflexivity. }
  unfold Gather. rewrite <- He1. unfold readExCommandsLock.
  rewrite (resolveCommands_acc (Commands e1)).
  rewrite (resolveCommands_acc (ExCommands e1)).
  unfold cycleCommands. rewrite <- Hl, <- !app_assoc. reflexivity.
Qed.



End CycleProperties.


(** * Further properties of the sanitizer *)

Lemma IndexByte_first (l r : list byte) (c : byte) :
  c ∉ l -> bytes.IndexByte (l ++ c :: r) c = bytes.Len l.
Proof.
  unfold bytes.Len. induction l as [|x l IH]; intros H; simpl.
  - destruct (decide (c = c)); [reflexivity | congruence].
  - rewrite not_elem_of_cons in H. destruct H as [Hx Hl].
    destruct (decide (x = c)); [congruence|].
    rewrite (IH Hl).
    destruct (Z.ltb_spec (Z.of_nat (length l)) 0); lia.
Qed.

(** The result of [truncate] is a prefix of the input, of at most 512
    bytes, with or without the marker after it. *)
Lemma truncate_shape (buf : list byte) :
  exists k : nat,
    (k <= Z.to_nat MaxStderrBytes)%nat /\
    (truncate buf = take k buf \/ truncate buf = take k buf ++ marker).
Proof.
  rewrite truncate_cases. cbv zeta.
  set (i := bytes.IndexByte (take (Z.to_nat MaxStderrBytes) buf) newline).
  destruct (0 <? i).
  - exists (Z.to_nat i `min` Z.to_nat MaxStderrBytes)%nat.
    split; [lia|]. rewrite take_take.
    destruct ((MaxStderrBytes <? bytes.Len buf) ||
              (i <? bytes.Len (take (Z.to_nat MaxStderrBytes) buf) - 1)).
    + right. reflexivity.
    + left. apply app_nil_r.
  - exists (Z.to_nat MaxStderrBytes). split; [lia|].
    destruct (MaxStderrBytes <? bytes.Len buf).
    + right. reflexivity.
    + left. apply app_nil_r.
Qed.

(** X1: whatever the captured standard error, [truncate] returns a
    prefix of it of at most 512 bytes, followed or not by the three bytes
    of the marker: never more than 515 bytes, and never a byte that was
    not in the input or the marker. *)
Theorem truncate_prefix_bounded (buf : list byte) :
  (exists k : nat,
     (k <= 512)%nat /\
     (truncate buf = take k buf \/ truncate buf = take k buf ++ marker)) /\
  bytes.Len (truncate buf) <= 515 /\
  (forall x, x ∈ truncate buf -> x ∈ buf \/ x ∈ marker).
Proof.
  destruct (truncate_shape buf) as [k [Hk Hshape]].
  change (Z.to_nat MaxStderrBytes) with 512%nat in Hk.
  split; [exists k; split; assumption|].
  split.
  - unfold bytes.Len.
    destruct Hshape as [-> | ->];
      rewrite ?length_app, length_take;
      change (length marker) with 3%nat; lia.
  - intros x Hx.
    destruct Hshape as [H|H]; rewrite H in Hx.
    + left. apply (subseteq_take k buf). exact Hx.
    + apply elem_of_app in Hx as [Hx|Hx]; [left | right; exact Hx].
      apply (subseteq_take k buf). exact Hx.
Qed.

(** X2: unless the captured standard error begins with a newline, what
    [truncate] returns is one line: it holds no newline byte. *)
Theorem truncate_single_line (buf : list byte) :
  head buf <> Some newline -> newline ∉ truncate buf.
Proof.
  intros Hhead. rewrite truncate_cases. cbv zeta.
  set (capped := take (Z.to_nat MaxStderrBytes) buf).
  pose proof (IndexByte_range capped newline) as R.
  assert (newline ∉ marker) as Hm.
  { unfold marker, newline. intros H.
    repeat (apply elem_of_cons in H as [H|H]; [discriminate|]).
    inversion H. }
  assert (newline ∉ (@nil byte)) as Hn by apply not_elem_of_nil.
  destruct (Z.ltb_spec 0 (bytes.IndexByte capped newline)) as [Hpos|Hnp].
  - destruct (IndexByte_found capped newline
                (bytes.IndexByte capped newline) ltac:(lia) eq_refl)
      as [_ Hb].
    rewrite not_elem_of_app. split; [exact Hb|].
    destruct ((MaxStderrBytes <? bytes.Len buf) ||
              (bytes.IndexByte capped newline <? bytes.Len capped - 1));
      assumption.
  - assert (bytes.IndexByte capped newline = -1) as Habs.
    { destruct (Z.eq_dec (bytes.IndexByte capped newline) 0) as [H0|]; [|lia].
      exfalso. apply Hhead.
      destruct (IndexByte_found capped newline 0 ltac:(lia) H0) as [Hat _].
      unfold capped in Hat. destruct buf; [discriminate|]. exact Hat. }
    apply IndexByte_absent in Habs.
    rewrite not_elem_of_app. split; [exact Habs|].
    destruct (MaxStderrBytes <? bytes.Len buf); assumption.
Qed.

Lemma truncate_single_line_witness :
  newline ∉ truncate two_lines.
Proof.
  apply truncate_single_line. vm_compute. discriminate.
Defined.

(** X3: a single non-empty line of fewer than 512 bytes that ends with
    its newline comes back without the newline and without the marker:
    the cut at a newline that is the last byte is not shown. *)
Theorem truncate_trailing_newline (line : list byte) :
  newline ∉ line -> line <> [] -> bytes.Len line < MaxStderrBytes ->
  truncate (line ++ [newline]) = line.
Proof.
  intros Hnl Hne Hlen. rewrite truncate_cases. cbv zeta.
  unfold bytes.Len, MaxStderrBytes in *.
  assert (length (line ++ [newline]) = S (length line)) as L
      by (rewrite length_app; simpl; lia).
  rewrite take_ge by lia.
  rewrite (IndexByte_first line [] newline Hnl). unfold bytes.Len.
  assert (0 < Z.of_nat (length line)) as Hpos
      by (destruct line; [congruence | simpl; lia]).
  replace (0 <? Z.of_nat (length line)) with true by lia.
  replace (512 <? Z.of_nat (length (line ++ [newline]))) with false by lia.
  replace (Z.of_nat (length line) <? Z.of_nat (length (line ++ [newline])) - 1)
    with false by lia.
  cbn [orb]. rewrite Nat2Z.id, take_app_length. apply app_nil_r.
Qed.

Lemma truncate_trailing_newline_witness :
  truncate (short_line ++ [newline]) = short_line.
Proof.
  apply truncate_trailing_newline.
  - vm_compute. intros H.
    repeat (apply elem_of_cons in H as [H|H]; [discriminate|]).
    inversion H.
  - discriminate.
  - vm_compute. reflexivity.
Defined.

Section SanitizerProperties.
Context `{env : GoEnv}.

Lemma removeCarriageReturns_filter (b : list byte) :
  removeCarriageReturns b =
  if decide (GOOS = "windows") then filter not_cr b else b.
Proof.
  unfold removeCarriageReturns.
  destruct (decide (GOOS = "windows")); [|reflexivity].
  apply removeCarriageReturns_loop_filter.
Qed.

Lemma filter_not_cr_clean (b : list byte) :
  carriage_return ∉ filter not_cr b.
Proof.
  intros H. apply list_elem_of_filter in H as [H _]. apply H. reflexivity.
Qed.

(** X4: stripping carriage returns twice is stripping them once; on
    Windows the result holds no carriage return; and on every platform
    text without a carriage return is returned as it is. *)
Theorem removeCarriageReturns_idempotent (b : list byte) :
  removeCarriageReturns (removeCarriageReturns b) = removeCarriageReturns b /\
  (GOOS = "windows" -> carriage_return ∉ removeCarriageReturns b) /\
  (carriage_return ∉ b -> removeCarriageReturns b = b).
Proof.
  rewrite !removeCarriageReturns_filter.
  destruct (decide (GOOS = "windows")) as [Hw|Hw].
  - split; [|split].
    + apply filter_not_cr_id, filter_not_cr_clean.
    + intros _. apply filter_not_cr_clean.
    + apply filter_not_cr_id.
  - split; [reflexivity|]. split; [congruence | reflexivity].
Qed.

(** X5: a command that [shellquote.Split] rejects, or splits into no
    word at all (the empty command), is not run: [Run] returns no output
    and the error "unable to parse command" around the split error, nil
    in the second case, whatever the process table holds. *)
Theorem Run_unparsable (command : string) (timeout : Z)
  (split_cmd : list string) (err : option error) :
  shellquote_Split command = (split_cmd, err) ->
  err <> None \/ split_cmd = [] ->
  CommandRunner_Run command timeout = ([], [], Some (UnableToParse err)).
Proof.
  intros Hsplit Hbad. unfold CommandRunner_Run. rewrite Hsplit.
  destruct Hbad as [Herr| ->].
  - rewrite bool_decide_eq_true_2 by exact Herr. reflexivity.
  - rewrite orb_true_r. reflexivity.
Qed.

(** X6: the standard error [Run] returns is never longer than 515
    bytes, and on Windows neither output it returns holds a carriage
    return. *)
Theorem Run_output_sanitized (command : string) (timeout : Z) :
  bytes.Len (CommandRunner_Run command timeout).1.2 <= 515 /\
  (GOOS = "windows" ->
   (carriage_return ∉ (CommandRunner_Run command timeout).1.1) /\
   (carriage_return ∉ (CommandRunner_Run command timeout).1.2)).
Proof.
  unfold CommandRunner_Run.
  destruct (shellquote_Split command) as [split_cmd err].
  destruct (bool_decide (err <> None) || (Z.of_nat (length split_cmd) =? 0)).
  - cbn [fst snd]. split; [unfold bytes.Len; simpl; lia|].
    intros _. split; apply not_elem_of_nil.
  - destruct (RunTimeout split_cmd timeout) as [[out stderr] runErr].
    cbn [fst snd].
    assert (forall buf, bytes.Len (truncate buf) <= 515) as Hbound.
    { intros buf. destruct (truncate_shape buf) as [k [Hk [H|H]]];
        rewrite H; unfold bytes.Len;
        rewrite ?length_app, length_take;
        change (length marker) with 3%nat;
        change (Z.to_nat MaxStderrBytes) with 512%nat in Hk; lia. }
    destruct (Z.ltb_spec 0 (bytes.Len stderr)) as [Hpos|Hzero].
    + split; [apply Hbound|]. intros Hw.
      rewrite !removeCarriageReturns_filter.
      destruct (decide (GOOS = "windows")); [|congruence].
      split; [apply filter_not_cr_clean|].
      destruct (truncate_shape (filter not_cr stderr)) as [k [_ [H|H]]];
        rewrite H; rewrite ?not_elem_of_app;
        [|split; [|unfold marker, carriage_return; intros Hin;
                    repeat (apply elem_of_cons in Hin as [Hin|Hin];
                            [discriminate|]); inversion Hin]];
        intros Hin; apply (subseteq_take k) in Hin;
        apply (filter_not_cr_clean _ Hin).
    + destruct stderr; [|unfold bytes.Len in Hzero; simpl in Hzero; lia].
      split; [unfold bytes.Len; simpl; lia|]. intros Hw.
      rewrite removeCarriageReturns_filter.
      destruct (decide (GOOS = "windows")); [|congruence].
      split; [apply filter_not_cr_clean | apply not_elem_of_nil].
Qed.

End SanitizerProperties.

Lemma Run_unparsable_witness :
  @CommandRunner_Run linux_env "" second = ([], [], Some (UnableToParse None)).
Proof.
  apply (@Run_unparsable linux_env "" second [] None).
  - reflexivity.
  - right. reflexivity.
Defined.

(** * Further properties of command processing and tagging *)

Section ProcessProperties.
Context `{env : GoEnv}.

Lemma addMetric_withPortTag (e : Exec2) (command : string) (metric : Metric)
  (acc : Accumulator) :
  addMetric e command metric acc =
  acc ++ [AddMetric (withPortTag e command metric)].
Proof.
  rewrite addMetric_cases. unfold withPortTag, boundPort.
  destruct (cmds e !! command), (ex_cmds e !! command);
    rewrite ?AddTag_twice; reflexivity.
Qed.

Lemma addMetric_fold (e : Exec2) (command : string) (metrics : list Metric)
  (acc : Accumulator) :
  fold_left (fun acc m => addMetric e command m acc) metrics acc =
  acc ++ map (fun m => AddMetric (withPortTag e command m)) metrics.
Proof.
  revert acc. induction metrics as [|m metrics IH]; intros acc;
    cbn [fold_left map].
  - symmetry. apply app_nil_r.
  - rewrite IH, addMetric_withPortTag, <- app_assoc. reflexivity.
Qed.

(** X7: the calls a command makes do not depend on what the accumulator
    already holds: [ProcessCommand] only appends, and what it appends is
    what it would add to an empty accumulator. *)
Theorem ProcessCommand_appends (e : Exec2) (command : string)
  (acc : Accumulator) :
  ProcessCommand e command acc = acc ++ ProcessCommand e command [].
Proof.
  unfold ProcessCommand.
  destruct (Run (runner e) command (Timeout e)) as [[out errbuf] runErr].
  assert (forall a : Accumulator,
            (let '(metrics, err) := Parse (parser e) out in
             match err with
             | Some err => a ++ [AddError err]
             | None =>
                 let '(metrics, acc) :=
                   if isNagiosParser (parser e)
                   then
                     let '(metrics, err) := TryAddState runErr metrics in
                     (metrics,
                      match err with
                      | Some err => a ++ [LogErrorf err]
                      | None => a
                      end)
                   else (metrics, a) in
                 fold_left (fun acc m => addMetric e command m acc) metrics acc
             end) =
            a ++
            (let '(metrics, err) := Parse (parser e) out in
             match err with
             | Some err => [AddError err]
             | None =>
                 let '(metrics, acc) :=
                   if isNagiosParser (parser e)
                   then
                     let '(metrics, err) := TryAddState runErr metrics in
                     (metrics,
                      match err with
                      | Some err => [LogErrorf err]
                      | None => []
                      end)
                   else (metrics, []) in
                 fold_left (fun acc m => addMetric e command m acc) metrics acc
             end)) as Hparse.
  { intros a. destruct (Parse (parser e) out) as [metrics [err|]];
      [reflexivity|].
    destruct (isNagiosParser (parser e)).
    - destruct (TryAddState runErr metrics) as [metrics' [terr|]];
        rewrite !addMetric_fold, ?app_nil_r, <- ?app_assoc; reflexivity.
    - rewrite !addMetric_fold. reflexivity. }
  destruct (negb (isNagiosParser (parser e))), runErr;
    first [reflexivity | apply Hparse].
Qed.

(** X8: a command reports either one error and nothing else, or no
    error at all: never an error beside metrics. *)
Theorem ProcessCommand_error_or_metrics (e : Exec2) (command : string) :
  (exists err, ProcessCommand e command [] = [AddError err]) \/
  (forall err, AddError err ∉ ProcessCommand e command []).
Proof.
  unfold ProcessCommand.
  destruct (Run (runner e) command (Timeout e)) as [[out errbuf] runErr].
  assert ((exists err,
             (let '(metrics, err) := Parse (parser e) out in
              match err with
              | Some err => [] ++ [AddError err]
              | None =>
                  let '(metrics, acc) :=
                    if isNagiosParser (parser e)
                    then
                      let '(metrics, err) := TryAddState runErr metrics in
                      (metrics,
                       match err with
                       | Some err => [] ++ [LogErrorf err]
                       | None => []
                       end)
                    else (metrics, []) in
                  fold_left (fun acc m => addMetric e command m acc)
                    metrics acc
              end) = [AddError err]) \/
          (forall err,
             AddError err ∉
             (let '(metrics, err) := Parse (parser e) out in
              match err with
              | Some err => [] ++ [AddError err]
              | None =>
                  let '(metrics, acc) :=
                    if isNagiosParser (parser e)
                    then
                      let '(metrics, err) := TryAddState runErr metrics in
                      (metrics,
                       match err with
                       | Some err => [] ++ [LogErrorf err]
                       | None => []
                       end)
                    else (metrics, []) in
                  fold_left (fun acc m => addMetric e command m acc)
                    metrics acc
              end))) as Hparse.
  { destruct (Parse (parser e) out) as [metrics [err|]].
    - left. exists err. reflexivity.
    - right. intros err.
      assert (forall ms : list Metric,
                AddError err ∉
                map (fun m => AddMetric (withPortTag e command m)) ms) as Hms.
      { intros ms H. apply list_elem_of_fmap in H as [m [H _]].
        discriminate. }
      destruct (isNagiosParser (parser e)).
      + destruct (TryAddState runErr metrics) as [metrics' [terr|]];
          rewrite addMetric_fold, not_elem_of_app; split; try apply Hms.
        * intros H. apply elem_of_cons in H as [H|H]; [discriminate|].
          inversion H.
        * apply not_elem_of_nil.
      + rewrite addMetric_fold, not_elem_of_app.
        split; [apply not_elem_of_nil | apply Hms]. }
  destruct (negb (isNagiosParser (parser e))), runErr as [runErr'|];
    try exact Hparse.
  left. eexists. reflexivity.
Qed.

(** X9: with the Nagios parser a failed run is not reported: the
    output is parsed all the same, [nagios.TryAddState] gets the run
    error and the parsed metrics, and when it fails its error goes to the
    plugin's log, not to the accumulator, and the metrics it gave back
    are tagged and added. *)
Theorem ProcessCommand_nagios (e : Exec2) (command : string)
  (acc : Accumulator) (out errbuf : list byte) (runErr terr : option error)
  (metrics metrics' : list Metric) :
  isNagiosParser (parser e) = true ->
  Run (runner e) command (Timeout e) = (out, errbuf, runErr) ->
  Parse (parser e) out = (metrics, None) ->
  TryAddState runErr metrics = (metrics', terr) ->
  ProcessCommand e command acc =
  acc ++
  match terr with Some err => [LogErrorf err] | None => [] end ++
  map (fun m => AddMetric (withPortTag e command m)) metrics'.
Proof.
  intros Hn Hrun Hparse Hstate. unfold ProcessCommand.
  rewrite Hn, Hrun. cbn [negb]. rewrite Hparse, Hstate, addMetric_fold.
  destruct terr; rewrite <- ?app_assoc; reflexivity.
Qed.

(** X10: tagging touches nothing but the "port" tag: the metric handed
    to the accumulator has the name, the fields and every other tag of
    the metric that was parsed. *)
Theorem addMetric_changes_only_port (e : Exec2) (command : string)
  (metric : Metric) (acc : Accumulator) :
  exists handed,
    addMetric e command metric acc = acc ++ [AddMetric handed] /\
    Name handed = Name metric /\
    Fields handed = Fields metric /\
    forall key, key <> "port" -> Tags handed !! key = Tags metric !! key.
Proof.
  exists (withPortTag e command metric).
  split; [apply addMetric_withPortTag|].
  unfold withPortTag. destruct (boundPort e command) as [port|].
  - split; [reflexivity|]. split; [reflexivity|].
    intros key Hkey. apply AddTag_lookup_ne. congruence.
  - repeat split.
Qed.

End ProcessProperties.

Lemma ProcessCommand_nagios_witness :
  @ProcessCommand nagios_env nagios_plugin "check_load" [] =
  [LogErrorf exit_code_unknown;
   AddMetric (mkMetric "exec" ∅ [mkField "output" (StringValue "")])].
Proof.
  exact (@ProcessCommand_nagios nagios_env nagios_plugin "check_load" []
           [] (bytes_of "denied") (Some exit_status_1)
           (Some exit_code_unknown)
           [mkMetric "exec" ∅ [mkField "output" (StringValue "")]]
           [mkMetric "exec" ∅ [mkField "output" (StringValue "")]]
           eq_refl eq_refl eq_refl eq_refl).
Defined.

(** * Further properties of command resolution *)

Section ResolutionProperties.
Context `{env : GoEnv}.

Lemma resolvePattern_glob_error (pattern : string) (matches : list string)
  (err : error) (commands : list string) (acc : Accumulator) :
  Glob (firstToken pattern) = (matches, Some err) ->
  resolvePattern (commands, acc) pattern = (commands, acc ++ [AddError err]).
Proof.
  intros HG. unfold resolvePattern. unfold firstToken in HG.
  rewrite SplitN_2 in *.
  destruct (gostrings.Cut pattern " ") as [[token rest]|];
    cbn [length Z.of_nat Z.eqb Pos.of_succ_nat nth] in *;
    rewrite HG; reflexivity.
Qed.

(** The state [Write] leaves when it rebuilds the dynamic set. *)
Lemma Write_state (e : Exec2) (metrics : list Metric) :
  Pattern e <> "" ->
  float64_values metrics <> [] ->
  Write e metrics =
  ({| Commands := Commands e; Command := Command e;
      Pattern := Pattern e; Ports := Ports e; cmds := cmds e;
      addedPattern := addedPattern e;
      ExCommands :=
        map (Sprintf (Pattern e)) (map FormatFloat (float64_values metrics));
      ex_cmds :=
        fold_left (fun m port => <[Sprintf (Pattern e) port := port]> m)
          (map FormatFloat (float64_values metrics)) ∅;
      Timeout := Timeout e; parser := parser e; runner := runner e |},
   None).
Proof.
  intros Hpat Hvals. unfold Write. rewrite extractPorts_values.
  rewrite bool_decide_eq_true_2 by exact Hpat.
  destruct (float64_values metrics) as [|v vs]; [congruence|].
  change (0 <? Z.of_nat (length (map FormatFloat (v :: vs)))) with true.
  cbn [andb]. rewrite generate_commands. reflexivity.
Qed.

(** X11: a spec whose token makes [filepath.Glob] fail resolves to no
    command: the iteration adds the glob error to the accumulator and
    nothing to the commands, and the specs after it are resolved as
    usual. *)
Theorem glob_error_drops_spec (spec : string) (matches : list string)
  (err : error) :
  Glob (firstToken spec) = (matches, Some err) ->
  (forall commands acc,
     resolvePattern (commands, acc) spec =
     (commands, acc ++ [AddError err])) /\
  (forall before after acc,
     resolveCommands (before ++ spec :: after) acc =
     (resolvedCommands before ++ resolvedCommands after,
      acc ++ globCalls before ++ [AddError err] ++ globCalls after)).
Proof.
  intros HG. split.
  - intros commands acc. apply (resolvePattern_glob_error _ _ _ _ _ HG).
  - intros before after acc.
    rewrite resolveCommands_app, resolveCommands_cons.
    rewrite (resolvePattern_glob_error _ _ _ _ _ HG).
    rewrite !resolveCommands_acc. cbn [fst snd].
    rewrite <- !app_assoc. reflexivity.
Qed.

(** The calls resolution makes on the accumulator are the glob errors
    of the tokens, one [AddError] each, in the order of the specs. *)
Lemma globCalls_errors (patterns : list string) :
  globCalls patterns = map AddError (globErrors patterns).
Proof.
  induction patterns as [|p patterns IH]; [reflexivity|].
  unfold globCalls in *. rewrite resolveCommands_cons. cbn [snd].
  rewrite resolveCommands_acc. cbn [snd]. unfold globCalls. rewrite IH.
  unfold globErrors. cbn [omap list_omap].
  destruct (Glob (firstToken p)) as [matches [err|]] eqn:HG.
  - rewrite (resolvePattern_glob_error _ _ _ _ _ HG). reflexivity.
  - rewrite (resolvePattern_glob _ _ _ _ HG). reflexivity.
Qed.

(** X12: resolution works spec by spec: the commands of a list of specs
    are the commands of its parts, one after the other, and what the
    accumulator receives is one [AddError] for each spec whose token
    makes [filepath.Glob] fail, with that error, in the order of the
    specs, after what it held, and nothing else. *)
Theorem resolution_composes (before after : list string) :
  resolvedCommands (before ++ after) =
    resolvedCommands before ++ resolvedCommands after /\
  (forall specs acc,
     resolveCommands specs acc =
     (resolvedCommands specs, acc ++ map AddError (globErrors specs))) /\
  forall acc,
    resolveCommands (before ++ after) acc =
    (resolvedCommands before ++ resolvedCommands after,
     acc ++ map AddError (globErrors before) ++
     map AddError (globErrors after)).
Proof.
  assert (forall specs acc,
            resolveCommands specs acc =
            (resolvedCommands specs, acc ++ map AddError (globErrors specs)))
    as Hall.
  { intros specs acc. rewrite resolveCommands_acc, globCalls_errors.
    reflexivity. }
  assert (forall acc,
            resolveCommands (before ++ after) acc =
            (resolvedCommands before ++ resolvedCommands after,
             acc ++ map AddError (globErrors before) ++
             map AddError (globErrors after))) as Happ.
  { intros acc. rewrite resolveCommands_app, !Hall. cbn [fst snd].
    rewrite <- app_assoc. reflexivity. }
  split; [|split; [exact Hall | exact Happ]].
  unfold resolvedCommands at 1. rewrite Happ. reflexivity.
Qed.

(** On a machine where no token matches a file, every spec stands for
    itself. *)
Lemma resolveCommands_no_match (specs : list string) (acc : Accumulator) :
  (forall token, Glob token = ([], None)) ->
  resolveCommands specs acc = (specs, acc).
Proof.
  intros HG. revert acc. induction specs as [|spec specs IH]; intros acc.
  - reflexivity.
  - rewrite resolveCommands_cons.
    rewrite (resolvePattern_glob spec [] [] acc (HG _)).
    cbn [fst snd]. rewrite IH. reflexivity.
Qed.

(** X13: where no token of a spec matches a file (the commands are found
    on the search path), the cycle runs the command list as it is
    written: resolution returns the specs, in order, and reports
    nothing. *)
Theorem no_match_runs_specs (specs : list string) (acc : Accumulator) :
  (forall token, Glob token = ([], None)) ->
  resolveCommands specs acc = (specs, acc) /\
  resolvedCommands specs = specs /\
  globCalls specs = [].
Proof.
  intros HG. split; [apply resolveCommands_no_match; exact HG|].
  unfold resolvedCommands, globCalls.
  rewrite (resolveCommands_no_match specs [] HG). split; reflexivity.
Qed.

(** X14: the dynamic commands a cycle reads are the ones the last
    rebuilding [Write] generated: where no token matches a file,
    [readExCommandsLock] after [Write] returns one command per float64
    value of the batch, in order, and reports nothing. *)
Theorem written_commands_are_read (e : Exec2) (metrics : list Metric)
  (acc : Accumulator) :
  (forall token, Glob token = ([], None)) ->
  Pattern e <> "" ->
  float64_values metrics <> [] ->
  readExCommandsLock (Write e metrics).1 acc =
  (map (fun v => Sprintf (Pattern e) (FormatFloat v))
     (float64_values metrics),
   acc).
Proof.
  intros HG Hpat Hvals. rewrite (Write_state e metrics Hpat Hvals).
  unfold readExCommandsLock. cbn [fst ExCommands].
  rewrite (resolveCommands_no_match _ _ HG), map_map. reflexivity.
Qed.

End ResolutionProperties.

Lemma glob_error_drops_spec_witness :
  @resolveCommands collectors_env ["["; "ls -l"]%string [] =
  (["ls -l"%string], [AddError bad_pattern]).
Proof.
  exact (proj2 (@glob_error_drops_spec collectors_env "[" [] bad_pattern
                  eq_refl) [] ["ls -l"%string] []).
Defined.

Lemma no_match_runs_specs_witness :
  @resolveCommands linux_env ["uptime"; "df -h /"]%string [] =
  (["uptime"; "df -h /"]%string, []).
Proof.
  exact (proj1 (@no_match_runs_specs linux_env ["uptime"; "df -h /"]%string
                  [] (fun _ => eq_refl))).
Defined.

Lemma written_commands_are_read_witness :
  @readExCommandsLock linux_env (@Write linux_env probe_plugin ports_batch).1 []
  = (["probe 9090"; "probe 9091"]%string, []).
Proof.
  assert (Pattern probe_plugin <> "") as Hpat by discriminate.
  assert (float64_values ports_batch <> []) as Hvals by discriminate.
  exact (@written_commands_are_read linux_env probe_plugin ports_batch []
           (fun _ => eq_refl) Hpat Hvals).
Defined.

(** * Further properties of the collection cycle *)

Section GatherProperties.
Context `{env : GoEnv}.

Lemma legacyFolded_idempotent (e : Exec2) :
  legacyFolded (legacyFolded e) = legacyFolded e.
Proof.
  unfold legacyFolded. cbn [Commands Command Pattern Ports cmds addedPattern
                             ExCommands ex_cmds Timeout parser runner].
  destruct (decide (@EmptyString <> "")) as [H|_]; [congruence|].
  rewrite app_nil_r. reflexivity.
Qed.

Lemma interleave_nil {A : Type} (sched : list nat) :
  @interleave A sched [] = [].
Proof. induction sched as [|k sched IH]; [reflexivity | exact IH]. Qed.


(** X15: [Gather] folds the legacy single command into the command list
    once: after a cycle the legacy field is empty and the command list
    has the legacy command at its end, a later cycle leaves that state
    as it is, and a cycle changes nothing else of the state: not the
    pattern, the static binding, the dynamic list or the dynamic
    binding. *)
Theorem Gather_folds_legacy_once (sched sched' : list nat) (e : Exec2)
  (acc acc' : Accumulator) :
  let e1 := (Gather sched e acc).1.1 in
  Command e1 = "" /\
  Commands e1 =
    Commands e ++ (if decide (Command e <> "") then [Command e] else []) /\
  (Gather sched' e1 acc').1.1 = e1 /\
  Pattern e1 = Pattern e /\ Ports e1 = Ports e /\ cmds e1 = cmds e /\
  addedPattern e1 = addedPattern e /\ ExCommands e1 = ExCommands e /\
  ex_cmds e1 = ex_cmds e /\ Timeout e1 = Timeout e.
Proof.
  intros e1. subst e1. rewrite !Gather_cycle. cbn [fst snd].
  rewrite legacyFolded_idempotent. repeat split.
Qed.



(** X18: a cycle with nothing to run (no command, no legacy command, no
    dynamic command) makes no call and changes nothing. *)
Theorem Gather_empty_cycle (sched : list nat) (e : Exec2) (acc : Accumulator) :
  Commands e = [] -> Command e = "" -> ExCommands e = [] ->
  Gather sched e acc = (e, acc, None).
Proof.
  intros Hc Hl Hx. unfold Gather.
  destruct (decide (Command e <> "")) as [Hne|_]; [congruence|].
  unfold readExCommandsLock. rewrite Hc, Hx.
  unfold resolveCommands. cbn [fold_left app map].
  rewrite interleave_nil, app_nil_r. reflexivity.
Qed.

End GatherProperties.


Lemma Gather_empty_cycle_witness :
  @Gather linux_env [0; 1]%nat idle_plugin [] = (idle_plugin, [], None).
Proof.
  exact (@Gather_empty_cycle linux_env [0; 1]%nat idle_plugin []
           eq_refl eq_refl eq_refl).
Defined.

(** * Further properties of the static and the dynamic set *)

Section BindingProperties.
Context `{env : GoEnv}.

Lemma genSplit_nonempty (n : nat) (s : string) (sep : ascii) :
  gostrings.genSplit n s sep <> [].
Proof.
  destruct n as [|n]; simpl; [discriminate|].
  destruct (gostrings.Cut s sep) as [[before after]|]; discriminate.
Qed.

Lemma Split_nonempty (s : string) (sep : ascii) :
  gostrings.Split s sep <> [].
Proof. apply genSplit_nonempty. Qed.

(** The state [addPatternCommands] leaves when it runs. *)
Lemma addPatternCommands_state (e : Exec2) :
  Pattern e <> "" -> Ports e <> "" -> addedPattern e = false ->
  addPatternCommands e =
  {| Commands :=
       Commands e ++
       map (Sprintf (Pattern e)) (gostrings.Split (Ports e) ",");
     Command := Command e; Pattern := Pattern e; Ports := Ports e;
     cmds :=
       fold_left (fun m port => <[Sprintf (Pattern e) port := port]> m)
         (gostrings.Split (Ports e) ",") ∅;
     addedPattern := true; ExCommands := ExCommands e;
     ex_cmds := ex_cmds e; Timeout := Timeout e; parser := parser e;
     runner := runner e |}.
Proof.
  intros Hpat Hports Hadd. unfold addPatternCommands.
  rewrite !bool_decide_eq_true_2 by assumption. rewrite Hadd.
  cbn [andb negb].
  pose proof (Split_nonempty (Ports e) ",") as Hne.
  revert Hne. generalize (gostrings.Split (Ports e) ","). intros ports Hne.
  assert (forall (bound : gmap string string) (commands : list string)
                 (added : bool),
            fold_left
              (fun '(cmds', commands, added) port =>
                 let cmd := Sprintf (Pattern e) port in
                 (<[cmd := port]> cmds', commands ++ [cmd], true))
              ports (bound, commands, added) =
            (fold_left (fun m port => <[Sprintf (Pattern e) port := port]> m)
               ports bound,
             commands ++ map (Sprintf (Pattern e)) ports,
             match ports with [] => added | _ => true end)) as Hloop.
  { clear. induction ports as [|port ports IH]; intros bound commands added.
    - simpl. rewrite app_nil_r. reflexivity.
    - cbn [fold_left map]. rewrite IH, <- app_assoc.
      destruct ports; reflexivity. }
  rewrite Hloop. destruct ports; [congruence | reflexivity].
Qed.

Lemma addPatternCommands_skips (e : Exec2) :
  Pattern e = "" \/ Ports e = "" \/ addedPattern e = true ->
  addPatternCommands e = e.
Proof.
  intros H. unfold addPatternCommands.
  destruct H as [H|[H|H]]; rewrite H.
  - reflexivity.
  - change (bool_decide (@EmptyString <> "")) with false.
    rewrite andb_false_r. reflexivity.
  - rewrite andb_false_r. reflexivity.
Qed.

(** X19: [Init] generates the static commands at most once: a second
    [Init] changes nothing, and [Init] changes nothing at all when no
    pattern or no port list is configured or the commands were already
    generated. *)
Theorem Init_runs_once (e : Exec2) :
  Init (Init e).1 = Init e /\
  (Pattern e = "" \/ Ports e = "" \/ addedPattern e = true ->
   Init e = (e, None)).
Proof.
  unfold Init. cbn [fst]. split.
  - f_equal.
    destruct (decide (Pattern e = "")) as [Hp|Hp];
      [rewrite (addPatternCommands_skips e) by (left; exact Hp);
       apply addPatternCommands_skips; left; exact Hp|].
    destruct (decide (Ports e = "")) as [Hq|Hq];
      [rewrite (addPatternCommands_skips e) by (right; left; exact Hq);
       apply addPatternCommands_skips; right; left; exact Hq|].
    destruct (addedPattern e) eqn:Ha;
      [rewrite (addPatternCommands_skips e) by (right; right; exact Ha);
       apply addPatternCommands_skips; right; right; exact Ha|].
    apply addPatternCommands_skips. right. right.
    rewrite (addPatternCommands_state e Hp Hq Ha). reflexivity.
  - intros H. f_equal. apply addPatternCommands_skips. exact H.
Qed.

(** X20: when [Init] generates the static set (a pattern and a port list
    are configured and nothing was generated yet), it appends to the
    command list one command per comma-separated port, in order, after
    the commands already there; the static binding then binds exactly
    the generated commands, each to a port that generates it; and the
    dynamic list and binding are as they were. *)
Theorem Init_binds_static_ports (e : Exec2) :
  Pattern e <> "" -> Ports e <> "" -> addedPattern e = false ->
  let ports := gostrings.Split (Ports e) "," in
  let e1 := (Init e).1 in
  Commands e1 = Commands e ++ map (Sprintf (Pattern e)) ports /\
  (forall cmd,
     is_Some (cmds e1 !! cmd) <-> cmd ∈ map (Sprintf (Pattern e)) ports) /\
  (forall cmd port,
     cmds e1 !! cmd = Some port ->
     Sprintf (Pattern e) port = cmd /\ port ∈ ports) /\
  addedPattern e1 = true /\
  ExCommands e1 = ExCommands e /\ ex_cmds e1 = ex_cmds e /\
  (Init e).2 = None.
Proof.
  intros Hp Hq Ha ports e1. subst e1. unfold Init. cbn [fst snd].
  rewrite (addPatternCommands_state e Hp Hq Ha).
  cbn [Commands cmds addedPattern ExCommands ex_cmds]. fold ports.
  split; [reflexivity|]. split; [|split; [|repeat split]].
  - intros cmd. rewrite bound_commands, lookup_empty.
    split; [intros [H|[x H]]; [exact H | discriminate]
           | intros H; left; exact H].
  - intros cmd port H.
    destruct (bound_port_generates _ _ _ _ _ H) as [[Hin Heq]|Hb].
    + split; [exact Heq | exact Hin].
    + rewrite lookup_empty in Hb. discriminate.
Qed.

(** A port is found under its command when no other port generates the
    same command. *)
Lemma bound_port_lookup (pattern : string) (ports : list string)
  (bound : gmap string string) (port : string) :
  port ∈ ports ->
  (forall p, p ∈ ports -> Sprintf pattern p = Sprintf pattern port ->
             p = port) ->
  fold_left (fun m port => <[Sprintf pattern port := port]> m) ports bound
    !! Sprintf pattern port = Some port.
Proof.
  induction ports as [|q ports IH] using rev_ind; intros Hin Hinj.
  - inversion Hin.
  - rewrite fold_left_app. cbn [fold_left]. rewrite lookup_insert.
    case_decide as Hc.
    + f_equal. apply Hinj; [|exact Hc]. apply elem_of_app. right. left.
    + apply IH.
      * apply elem_of_app in Hin as [Hin|Hin]; [exact Hin|].
        apply list_elem_of_singleton in Hin. subst. congruence.
      * intros p Hp. apply Hinj. apply elem_of_app. left. exact Hp.
Qed.

(** X21: a static port comes back as the tag: after [Init] generated
    the static set, a metric of the command generated for one of the
    ports gets that port as its "port" tag, provided no other port of
    the list generates the same command and the dynamic binding does not
    bind it. *)
Theorem static_port_round_trip (e : Exec2) (port : string) (metric : Metric)
  (acc : Accumulator) :
  Pattern e <> "" -> Ports e <> "" -> addedPattern e = false ->
  port ∈ gostrings.Split (Ports e) "," ->
  (forall p, p ∈ gostrings.Split (Ports e) "," ->
             Sprintf (Pattern e) p = Sprintf (Pattern e) port -> p = port) ->
  ex_cmds e !! Sprintf (Pattern e) port = None ->
  addMetric (Init e).1 (Sprintf (Pattern e) port) metric acc =
  acc ++ [AddMetric (AddTag "port" port metric)].
Proof.
  intros Hp Hq Ha Hin Hinj Hdyn. unfold Init. cbn [fst].
  rewrite (addPatternCommands_state e Hp Hq Ha), addMetric_cases.
  cbn [cmds ex_cmds].
  rewrite (bound_port_lookup _ _ _ _ Hin Hinj), Hdyn. reflexivity.
Qed.

(** X22: a written port comes back as the tag: after a [Write] that
    rebuilt the dynamic set, a metric of the command generated for one
    of the float64 values gets that value, formatted, as its "port" tag,
    whatever the static binding holds, provided no other value of the
    batch generates the same command. *)
Theorem dynamic_port_round_trip (e : Exec2) (metrics : list Metric)
  (v : float) (metric : Metric) (acc : Accumulator) :
  Pattern e <> "" ->
  v ∈ float64_values metrics ->
  (forall p, p ∈ map FormatFloat (float64_values metrics) ->
             Sprintf (Pattern e) p = Sprintf (Pattern e) (FormatFloat v) ->
             p = FormatFloat v) ->
  addMetric (Write e metrics).1 (Sprintf (Pattern e) (FormatFloat v))
    metric acc =
  acc ++ [AddMetric (AddTag "port" (FormatFloat v) metric)].
Proof.
  intros Hp Hin Hinj.
  assert (float64_values metrics <> []) as Hne
      by (intros H; rewrite H in Hin; inversion Hin).
  rewrite (Write_state e metrics Hp Hne). cbn [fst].
  rewrite addMetric_withPortTag. unfold withPortTag, boundPort.
  cbn [ex_cmds].
  rewrite (bound_port_lookup _ _ _ (FormatFloat v)); [reflexivity| |exact Hinj].
  apply list_elem_of_fmap. exists v. split; [reflexivity | exact Hin].
Qed.

(** X23: [Write] never touches the static side: the command list, the
    legacy command, the pattern, the port list, the static binding and
    the timeout are the same after any call, and the error returned is
    nil. *)
Theorem Write_keeps_static (e : Exec2) (metrics : list Metric) :
  let e1 := (Write e metrics).1 in
  Commands e1 = Commands e /\ Command e1 = Command e /\
  Pattern e1 = Pattern e /\ Ports e1 = Ports e /\ cmds e1 = cmds e /\
  addedPattern e1 = addedPattern e /\ Timeout e1 = Timeout e /\
  (Write e metrics).2 = None.
Proof.
  intros e1. subst e1. unfold Write.
  destruct (bool_decide (Pattern e <> "") &&
            (0 <? Z.of_nat (length (extractPorts metrics))));
    [|repeat split].
  rewrite generate_commands. repeat split.
Qed.

(** X24: the last writer wins: after two calls of [Write], the second
    with a pattern configured and at least one float64 value, the state
    is what the second call alone would have left; nothing of the first
    batch remains. *)
Theorem Write_last_wins (e : Exec2) (earlier later : list Metric) :
  Pattern e <> "" ->
  float64_values later <> [] ->
  Write (Write e earlier).1 later = Write e later.
Proof.
  intros Hp Hne.
  rewrite (Write_state e later Hp Hne).
  destruct (decide (float64_values earlier = [])) as [He|He].
  - assert (Write e earlier = (e, None)) as W.
    { unfold Write. rewrite extractPorts_values, He. simpl.
      rewrite andb_false_r. reflexivity. }
    rewrite W. cbn [fst]. apply (Write_state e later Hp Hne).
  - rewrite (Write_state e earlier Hp He). cbn [fst].
    rewrite Write_state by assumption. reflexivity.
Qed.

(** X25: only float64 field values are ports: a batch whose fields are
    all integers, unsigned integers, strings or booleans extracts
    nothing, and [Write] leaves the state as it was. *)
Theorem Write_ignores_other_types (e : Exec2) (metrics : list Metric) :
  (forall m f, m ∈ metrics -> f ∈ FieldList m ->
               forall v, Value f <> Float64 v) ->
  float64_values metrics = [] /\ Write e metrics = (e, None).
Proof.
  intros Hnone.
  assert (float64_values metrics = []) as Hv.
  { unfold float64_values.
    induction metrics as [|m metrics IH]; [reflexivity|].
    cbn [map concat].
    rewrite IH by (intros m' f Hm; apply Hnone; right; exact Hm).
    rewrite app_nil_r.
    assert (forall f, f ∈ FieldList m -> float64_of f = None) as Hf.
    { intros f Hin. unfold float64_of.
      pose proof (Hnone m f ltac:(left) Hin) as Hx.
      destruct (Value f); try reflexivity. exfalso. apply (Hx v).
      reflexivity. }
    clear IH Hnone. induction (FieldList m) as [|f fields IH];
      [reflexivity|].
    cbn [omap list_omap]. rewrite (Hf f) by left.
    apply IH. intros f' Hin. apply Hf. right. exact Hin. }
  split; [exact Hv|].
  unfold Write. rewrite extractPorts_values, Hv. simpl.
  rewrite andb_false_r. reflexivity.
Qed.

End BindingProperties.

Lemma Init_binds_static_ports_witness :
  Commands (@Init linux_env check_port_plugin).1 =
    ["check_port 80"; "check_port 443"]%string /\
  addedPattern (@Init linux_env check_port_plugin).1 = true.
Proof.
  assert (Pattern check_port_plugin <> "") as Hp by discriminate.
  assert (Ports check_port_plugin <> "") as Hq by discriminate.
  pose proof (@Init_binds_static_ports linux_env check_port_plugin
                Hp Hq eq_refl) as [Hc [_ [_ [Ha _]]]].
  split; [exact Hc | exact Ha].
Defined.

Lemma static_port_round_trip_witness :
  addMetric (@Init linux_env check_port_plugin).1 "check_port 80"
    sample_metric [] =
  [AddMetric (AddTag "port" "80" sample_metric)].
Proof.
  assert (Pattern check_port_plugin <> "") as Hp by discriminate.
  assert (Ports check_port_plugin <> "") as Hq by discriminate.
  refine (@static_port_round_trip linux_env check_port_plugin "80"
            sample_metric [] Hp Hq eq_refl _ _ eq_refl).
  - vm_compute. left.
  - intros p Hin. vm_compute in Hin.
    apply elem_of_cons in Hin as [->|Hin]; [reflexivity|].
    apply elem_of_cons in Hin as [->|Hin]; [|inversion Hin].
    vm_compute. discriminate.
Defined.

Lemma dynamic_port_round_trip_witness :
  addMetric (@Write linux_env probe_plugin ports_batch).1 "probe 9091"
    sample_metric [] =
  [AddMetric (AddTag "port" "9091" sample_metric)].
Proof.
  assert (Pattern probe_plugin <> "") as Hp by discriminate.
  refine (@dynamic_port_round_trip linux_env probe_plugin ports_batch
            9091%float sample_metric [] Hp _ _).
  - vm_compute. right. left.
  - intros p Hin. vm_compute in Hin.
    apply elem_of_cons in Hin as [->|Hin]; [vm_compute; discriminate|].
    apply elem_of_cons in Hin as [->|Hin]; [reflexivity | inversion Hin].
Defined.

Lemma Write_last_wins_witness :
  ExCommands
    (@Write linux_env (@Write linux_env probe_plugin no_float_batch).1
       ports_batch).1 = ["probe 9090"; "probe 9091"]%string.
Proof.
  assert (Pattern probe_plugin <> "") as Hp by discriminate.
  assert (float64_values ports_batch <> []) as Hne by discriminate.
  rewrite (@Write_last_wins linux_env probe_plugin no_float_batch
             ports_batch Hp Hne).
  reflexivity.
Defined.

Lemma Write_ignores_other_types_witness :
  @Write linux_env probe_plugin no_float_batch = (probe_plugin, None).
Proof.
  refine (proj2 (@Write_ignores_other_types linux_env probe_plugin
                   no_float_batch _)).
  intros m f Hm Hf v. vm_compute in Hm.
  apply elem_of_cons in Hm as [->|Hm]; [|inversion Hm].
  vm_compute in Hf.
  apply elem_of_cons in Hf as [->|Hf]; [discriminate|].
  apply elem_of_cons in Hf as [->|Hf]; [discriminate | inversion Hf].
Defined.

(** * What a cycle reports *)

Section ReportProperties.
Context `{env : GoEnv}.











End ReportProperties.


